(** * intmul: a shallow embedding of [src/Uebung_1/Intmul/intmul.c]

    The program reads two hexadecimal numbers from stdin, pads them to a
    common power-of-two length and multiplies them by forking four copies
    of itself (one per pair of halves), shifting the four partial products
    and summing them digit by digit.

    Modelling choices.
    - A C character is an [ascii]; a C string is the list of its bytes, the
      terminating NUL being implicit at the end of the list (a list may
      contain a NUL byte read by [getline]; the C string functions stop at
      the first one, see [cstr]).
    - Standard input of a process is a [list ascii]; its standard output is
      a [list ascii]; a process run is a pair (exit status, stdout).
    - [fork]/[execlp] of the same executable is a recursive call of the
      program on the bytes written into the child's stdin pipe.  The
      recursion is bounded by a [fuel] argument (the depth of the process
      tree); an exhausted fuel is not a behaviour of the program, theorems
      assume enough of it.
    - Resource exhaustion (malloc, pipe, fork, the capacity of a pipe, the
      width of [int] lengths) is not modelled: the operational limits of the
      process tree are outside these theorems. *)

From Stdlib Require Import ZArith Lia List Ascii Bool Arith.
From Stdlib Require Import String.
From Stdlib Require Import List.
Import ListNotations.

(* ------------------------------------------------------------------ *)
(** ** Characters *)

Definition NUL : ascii := "000".
Definition NL : ascii := "010".
Definition ZERO : ascii := "0".

Definition EXIT_SUCCESS : Z := 0.
Definition EXIT_FAILURE : Z := 1.

Definition code (c : ascii) : nat := nat_of_ascii c.

(** [<ctype.h>] in the "C" locale. *)
Definition isdigit (c : ascii) : bool := (48 <=? code c) && (code c <=? 57).
Definition isxdigit (c : ascii) : bool :=
  isdigit c || ((97 <=? code c) && (code c <=? 102))
            || ((65 <=? code c) && (code c <=? 70)).
Definition tolower (c : ascii) : ascii :=
  if (65 <=? code c) && (code c <=? 90) then ascii_of_nat (code c + 32) else c.

(** [isValidHexadecimal]: scans the C string up to its NUL terminator. *)
Definition isValidHexChar (c : ascii) : bool :=
  ((48 <=? code c) && (code c <=? 57)) ||
  ((97 <=? code c) && (code c <=? 102)) ||
  ((65 <=? code c) && (code c <=? 70)) ||
  Ascii.eqb c NL.

Fixpoint isValidHexadecimal (s : list ascii) : bool :=
  match s with
  | [] => true
  | c :: r => if Ascii.eqb c NUL then true
              else if isValidHexChar c then isValidHexadecimal r else false
  end.

(** [hexDigitToInt] *)
Definition hexDigitToInt (hex : ascii) : Z :=
  if isxdigit hex then
    if isdigit hex then Z.of_nat (code hex) - 48
    else Z.of_nat (code (tolower hex)) - 97 + 10
  else -1.

(** [intToHex]: the character [-1] is the byte 255. *)
Definition hex_digits : list ascii :=
  ["0";"1";"2";"3";"4";"5";"6";"7";"8";"9";"a";"b";"c";"d";"e";"f"]%char.

Definition intToHex (num : Z) : ascii :=
  if (0 <=? num)%Z && (num <=? 15)%Z then nth (Z.to_nat num) hex_digits NUL
  else ascii_of_nat 255.

(** [addHexDigits a b &carry]: returns (low digit, new carry); C's [/] and
    [%] on [int] truncate, that is [Z.quot] and [Z.rem]. *)
Definition addHexDigits (a b carryOut : ascii) : ascii * ascii :=
  let numA := hexDigitToInt a in
  let numB := hexDigitToInt b in
  let numCarry := hexDigitToInt carryOut in
  let result := (numA + numB + 16 * numCarry)%Z in
  (intToHex (Z.rem result 16), intToHex (Z.quot result 16)).

(** [multiplyHexDigits a b &product &carryOut]: returns (product,
    carryOut), the low and the high digit of the product. *)
Definition multiplyHexDigits (a b : ascii) : ascii * ascii :=
  let numA := hexDigitToInt a in
  let numB := hexDigitToInt b in
  let result := (numA * numB)%Z in
  (intToHex (Z.rem result 16), intToHex (Z.quot result 16)).

(* ------------------------------------------------------------------ *)
(** ** C strings and [getline] *)

(** The C string stored in a buffer: the bytes before the first NUL. *)
Fixpoint cstr (s : list ascii) : list ascii :=
  match s with
  | [] => []
  | c :: r => if Ascii.eqb c NUL then [] else c :: cstr r
  end.

Definition strlen (s : list ascii) : nat := length (cstr s).

Fixpoint getline_aux (s : list ascii) : list ascii * list ascii :=
  match s with
  | [] => ([], [])
  | c :: r => if Ascii.eqb c NL then ([c], r)
              else let '(l, rest) := getline_aux r in (c :: l, rest)
  end.

(** [getline]: [None] is the return value [-1] (end of file, nothing
    read); otherwise the line read (with its newline, if any) and the
    remaining stream.  The number of bytes read is the length of the line. *)
Definition getline (s : list ascii) : option (list ascii * list ascii) :=
  match s with
  | [] => None
  | _ => Some (getline_aux s)
  end.

(** Trimming of a trailing newline of the C string. *)
Definition trimNewline (s : list ascii) : list ascii :=
  match rev s with
  | c :: r => if Ascii.eqb c NL then rev r else s
  | [] => s
  end.

(** [readInput]: [None] is an [exit(EXIT_FAILURE)] after a diagnostic on
    stderr; nothing is written to stdout. *)
Definition emptyLine (l : list ascii) : bool :=
  match l with
  | [c] => Ascii.eqb c NL
  | _ => false
  end.

Definition readInput (stdin : list ascii) : option (list ascii * list ascii) :=
  match getline stdin with
  | None => None
  | Some (inputA, rest) =>
    if emptyLine inputA then None else
    match getline rest with
    | None => None
    | Some (inputB, _) =>
      if emptyLine inputB then None else
      if negb (isValidHexadecimal inputA) then None else
      if negb (isValidHexadecimal inputB) then None else
      Some (trimNewline (cstr inputA), trimNewline (cstr inputB))
    end
  end.

(* ------------------------------------------------------------------ *)
(** ** [padAndAlignNumbers] *)

(** [while (maxLength < lenA || maxLength < lenB) maxLength *= 2;]
    with a fuel that always exceeds the number of iterations. *)
Fixpoint doubleUntil (fuel maxLength lenA lenB : nat) : nat :=
  match fuel with
  | O => maxLength
  | S f => if (maxLength <? lenA) || (maxLength <? lenB)
           then doubleUntil f (maxLength * 2) lenA lenB
           else maxLength
  end.

Definition computeMaxLength (lenA lenB : nat) : nat :=
  doubleUntil (lenA + lenB) 1 lenA lenB.

Definition padAndAlignNumbers (numA numB : list ascii) : list ascii * list ascii :=
  let lenA := strlen numA in
  let lenB := strlen numB in
  let maxLength := computeMaxLength lenA lenB in
  (repeat ZERO (maxLength - lenA) ++ cstr numA,
   repeat ZERO (maxLength - lenB) ++ cstr numB).

(* ------------------------------------------------------------------ *)
(** ** Splitting, children and the collection of their results *)

(** [splitNumbers]: [strncpy(Ah, numA, mid)], [strcpy(Al, numA + mid)]
    cut at [mid], and the same for [numB]. *)
Definition splitNumbers (numA numB : list ascii)
  : list ascii * list ascii * list ascii * list ascii :=
  let mid := strlen numA / 2 in
  (firstn mid numA, firstn mid (skipn mid numA),
   firstn mid numB, firstn mid (skipn mid numB)).

(** [sendInputToChild]: [fprintf(stream, "%s\n%s\n", A, B)], then the pipe
    is closed; these are all the bytes the child reads on its stdin. *)
Definition sendInputToChild (A B : list ascii) : list ascii :=
  A ++ NL :: B ++ [NL].

(** [waitForChildren]: [waitpid] on the children in index order; at the
    first exit status different from [EXIT_SUCCESS] the process exits.
    Returns the indices of the collected children and whether the loop
    ran to its end. *)
Fixpoint waitFrom (i : nat) (statuses : list Z) : list nat * bool :=
  match statuses with
  | [] => ([], true)
  | s :: r =>
    if (s =? EXIT_SUCCESS)%Z
    then let '(collected, ok) := waitFrom (S i) r in (i :: collected, ok)
    else ([i], false)
  end.

Definition waitForChildren (statuses : list Z) : list nat * bool :=
  waitFrom 0 statuses.

(** Reading one line of each child's output with [getline]. *)
Fixpoint readResults (outs : list (list ascii)) : option (list (list ascii)) :=
  match outs with
  | [] => Some []
  | o :: r =>
    match getline o with
    | None => None
    | Some (line, _) =>
      match readResults r with
      | None => None
      | Some ls => Some (line :: ls)
      end
    end
  end.

(* ------------------------------------------------------------------ *)
(** ** Shifting and summation *)

(** [shiftedResults[i][j]] as the loops of [main] fill it; a read past
    the end of an intermediate result reads [NUL]. *)
Definition shiftedCell (i lenA : nat) (ir : list ascii) (j : nat) : ascii :=
  let zerosBefore := lenA / 2 in
  if i =? 0 then
    (if j <? lenA then nth j ir NUL else ZERO)
  else if (i =? 1) || (i =? 2) then
    (if j <? zerosBefore then ZERO
     else if j <? zerosBefore + lenA then nth (j - zerosBefore) ir NUL
     else ZERO)
  else (* i = 3 *)
    (if j <? lenA then ZERO else nth (j - lenA) ir NUL).

Definition shiftRow (i lenA : nat) (ir : list ascii) : list ascii :=
  map (shiftedCell i lenA ir) (seq 0 (2 * lenA)).

Definition shiftResults (lenA : nat) (irs : list (list ascii)) : list (list ascii) :=
  map (fun i => shiftRow i lenA (nth i irs [])) [0; 1; 2; 3].

(** One column of the summation:
    [final_result[i] = carry_digit; carry_digit = '0';
     for j: final_result[i] = addHexDigits(final_result[i], shiftedResults[j][i], &carry_digit);] *)
Definition columnStep (state : ascii * ascii) (d : ascii) : ascii * ascii :=
  let '(r, c) := state in addHexDigits r d c.

Definition column (carry_digit : ascii) (digits : list ascii) : ascii * ascii :=
  fold_left columnStep digits (carry_digit, ZERO).

(** The loop [for (i = 2 * lenA - 1; i >= 0; i--)]: [sumLoop k] processes
    the columns [k-1] down to [0]; it returns the digits and the carry
    left after column [0]. *)
Fixpoint sumLoop (k : nat) (shifted : list (list ascii)) (carry_digit : ascii)
  (final_result : list ascii) : list ascii * ascii :=
  match k with
  | O => (final_result, carry_digit)
  | S i =>
    let '(d, c) := column carry_digit (map (fun row => nth i row NUL) shifted) in
    sumLoop i shifted c (d :: final_result)
  end.

(** [printf("%02x", res)]: the [unsigned] value in lowercase hexadecimal,
    zero-padded to at least two digits. *)
Fixpoint hexMin (fuel : nat) (u : Z) : list ascii :=
  match fuel with
  | O => []
  | S f => (if (u / 16 =? 0)%Z then [] else hexMin f (u / 16)) ++ [intToHex (u mod 16)]
  end.

Definition format_02x (res : Z) : list ascii :=
  let ds := hexMin 8 (res mod 2 ^ 32) in
  repeat ZERO (2 - length ds) ++ ds.

(* ------------------------------------------------------------------ *)
(** ** [main] *)

(** [main] after [readInput] and [padAndAlignNumbers]; [child] runs a
    forked copy of the program on the bytes of its stdin pipe. *)
Definition mulBody (child : list ascii -> Z * list ascii)
  (inputA inputB : list ascii) : Z * list ascii :=
  let lenA := strlen inputA in
  if 1 <? lenA then
    let '(Ah, Al, Bh, Bl) := splitNumbers inputA inputB in
    let runs := map child [sendInputToChild Ah Bh; sendInputToChild Ah Bl;
                           sendInputToChild Al Bh; sendInputToChild Al Bl] in
    if snd (waitForChildren (map fst runs)) then
      match readResults (map snd runs) with
      | None => (EXIT_FAILURE, [])
      | Some intermediateResults =>
        let shifted := shiftResults lenA intermediateResults in
        let '(final_result, _) := sumLoop (2 * lenA) shifted ZERO [] in
        (EXIT_SUCCESS, final_result ++ [NL])
      end
    else (EXIT_FAILURE, [])
  else if lenA =? 1 then
    let br1 := hexDigitToInt (tolower (hd NUL inputA)) in
    let br2 := hexDigitToInt (tolower (hd NUL inputB)) in
    (EXIT_SUCCESS, format_02x (br1 * br2) ++ [NL])
  else (EXIT_SUCCESS, []).

(** The program, invoked without arguments, on its standard input. *)
Fixpoint intmul (fuel : nat) (stdin : list ascii) : Z * list ascii :=
  match fuel with
  | O => (EXIT_FAILURE, [])
  | S f =>
    match readInput stdin with
    | None => (EXIT_FAILURE, [])
    | Some (inputA, inputB) =>
      let '(a, b) := padAndAlignNumbers inputA inputB in
      mulBody (intmul f) a b
    end
  end.

(* ------------------------------------------------------------------ *)
(** ** Reference notions (from the specification's words) *)

(** A hexadecimal digit character, without the newline. *)
Definition hexchar (c : ascii) : bool := isxdigit c.

(** Numeric value of a digit string, most significant digit first. *)
Definition hex_value (s : list ascii) : Z :=
  fold_left (fun v c => 16 * v + hexDigitToInt c)%Z s 0%Z.

(** [render w v]: the lowest [w] hexadecimal digits of [v], lowercase,
    most significant first (zero-padded on the left). *)
Fixpoint render (w : nat) (v : Z) : list ascii :=
  match w with
  | O => []
  | S w' => render w' (v / 16) ++ [intToHex (v mod 16)]
  end.

(** Smallest power of two [>= m]. *)
Definition nextPow2 (m : nat) : nat := 2 ^ Nat.log2_up m.

Definition str (s : String.string) : list ascii := String.list_ascii_of_string s.

(** Sum of the values of a column of digits. *)
Definition digitSum (ds : list ascii) : Z :=
  fold_right (fun d acc => hexDigitToInt d + acc)%Z 0%Z ds.

(** Sum over the rows of the value of each row's first [k] digits
    (its [k] most significant ones). *)
Definition prefixSum (k : nat) (rows : list (list ascii)) : Z :=
  fold_right (fun row acc => hex_value (firstn k row) + acc)%Z 0%Z rows.

(** Every row has at least [k] digits, all hexadecimal. *)
Definition wellFormedRows (k : nat) (rows : list (list ascii)) : Prop :=
  Forall (fun row => (k <= length row)%nat /\ forallb hexchar row = true) rows.

(** A lowercase hexadecimal digit. *)
Definition lowerhex (c : ascii) : bool :=
  isdigit c || ((97 <=? code c) && (code c <=? 102)).

Example intmul_1a_ab :
  intmul 10 (str "1a"%string ++ NL :: str "ab"%string ++ [NL]) = (0%Z, str "115e"%string ++ [NL]).
Proof. vm_compute. reflexivity. Qed.

Example intmul_3_12 :
  intmul 10 (str "3"%string ++ NL :: str "12"%string ++ [NL]) = (0%Z, str "0036"%string ++ [NL]).
Proof. vm_compute. reflexivity. Qed.

Example intmul_big :
  intmul 10 (str "FfFf3"%string ++ NL :: str "abcdef12"%string ++ [NL])
  = (0%Z, render 16 (hex_value (str "ffff3"%string) * hex_value (str "abcdef12"%string))%Z ++ [NL]).
Proof. vm_compute. reflexivity. Qed.

(* ------------------------------------------------------------------ *)
(** * Properties *)

(** ** Characters *)

Ltac ascii_cases c :=
  destruct c as [[] [] [] [] [] [] [] []].

Lemma hexchar_range_b (c : ascii) :
  hexchar c = true ->
  ((0 <=? hexDigitToInt c)%Z && (hexDigitToInt c <=? 15)%Z) = true.
Proof. ascii_cases c; vm_compute; congruence. Qed.

Lemma hexchar_range (c : ascii) :
  hexchar c = true -> (0 <= hexDigitToInt c <= 15)%Z.
Proof.
  intros H; apply hexchar_range_b in H.
  apply andb_prop in H as [H1 H2]; apply Z.leb_le in H1, H2; lia.
Qed.

Lemma hexchar_facts (c : ascii) :
  hexchar c = true ->
  Ascii.eqb c NUL = false /\ Ascii.eqb c NL = false /\
  isValidHexChar c = true /\ hexDigitToInt (tolower c) = hexDigitToInt c.
Proof. ascii_cases c; vm_compute; intuition congruence. Qed.

(** Enumerate the values [0..15]. *)
Lemma Z_digit_cases (P : Z -> Prop) :
  (forall n : nat, (n < 16)%nat -> P (Z.of_nat n)) ->
  forall v, (0 <= v <= 15)%Z -> P v.
Proof.
  intros H v Hv. rewrite <- (Z2Nat.id v) by lia. apply H. lia.
Qed.

Lemma intToHex_facts (v : Z) :
  (0 <= v <= 15)%Z ->
  hexchar (intToHex v) = true /\ hexDigitToInt (intToHex v) = v.
Proof.
  apply (Z_digit_cases (fun v => hexchar (intToHex v) = true /\
                                 hexDigitToInt (intToHex v) = v)).
  intros n Hn. do 16 (destruct n as [|n]; [split; reflexivity|]). lia.
Qed.

Lemma intToHex_hexchar (v : Z) :
  (0 <= v <= 15)%Z -> hexchar (intToHex v) = true.
Proof. intros H; apply intToHex_facts, H. Qed.

Lemma intToHex_value (v : Z) :
  (0 <= v <= 15)%Z -> hexDigitToInt (intToHex v) = v.
Proof. intros H; apply intToHex_facts, H. Qed.

Lemma mod16_range (v : Z) : (0 <= v mod 16 <= 15)%Z.
Proof. pose proof (Z.mod_pos_bound v 16). lia. Qed.

(** ** Digit strings and their values *)

Lemma hex_value_fold (s : list ascii) (v : Z) :
  fold_left (fun v c => 16 * v + hexDigitToInt c)%Z s v
  = (v * 16 ^ Z.of_nat (length s) + hex_value s)%Z.
Proof.
  revert v; induction s as [|c s IH]; intros v.
  - unfold hex_value; simpl. lia.
  - unfold hex_value; cbn [fold_left]. rewrite !IH.
    simpl length. rewrite Nat2Z.inj_succ, Z.pow_succ_r by lia. ring.
Qed.

Lemma hex_value_app (s t : list ascii) :
  hex_value (s ++ t) = (hex_value s * 16 ^ Z.of_nat (length t) + hex_value t)%Z.
Proof. unfold hex_value at 1. rewrite fold_left_app, hex_value_fold. reflexivity. Qed.

Lemma hex_value_cons (c : ascii) (s : list ascii) :
  hex_value (c :: s) = (hexDigitToInt c * 16 ^ Z.of_nat (length s) + hex_value s)%Z.
Proof.
  change (c :: s) with ([c] ++ s). rewrite hex_value_app. reflexivity.
Qed.

Lemma hex_value_repeat_zero (n : nat) : hex_value (repeat ZERO n) = 0%Z.
Proof.
  induction n as [|n IH]; [reflexivity|].
  simpl repeat. rewrite hex_value_cons, IH. reflexivity.
Qed.

Lemma hex_value_range (s : list ascii) :
  forallb hexchar s = true ->
  (0 <= hex_value s < 16 ^ Z.of_nat (length s))%Z.
Proof.
  induction s as [|c s IH]; intros H.
  - vm_compute. split; congruence.
  - simpl in H. apply andb_prop in H as [Hc Hs].
    rewrite hex_value_cons. apply hexchar_range in Hc. specialize (IH Hs).
    simpl length. rewrite Nat2Z.inj_succ, Z.pow_succ_r by lia. nia.
Qed.

Lemma render_length (w : nat) (v : Z) : length (render w v) = w.
Proof.
  revert v; induction w as [|w IH]; intros v; [reflexivity|].
  simpl. rewrite length_app, IH. simpl. lia.
Qed.

Lemma render_hexchar (w : nat) (v : Z) : forallb hexchar (render w v) = true.
Proof.
  revert v; induction w as [|w IH]; intros v; [reflexivity|].
  simpl. rewrite forallb_app, IH. simpl.
  rewrite intToHex_hexchar by apply mod16_range. reflexivity.
Qed.

Lemma render_value (w : nat) (v : Z) :
  hex_value (render w v) = (v mod 16 ^ Z.of_nat w)%Z.
Proof.
  revert v; induction w as [|w IH]; intros v.
  - simpl. rewrite Z.mod_1_r. reflexivity.
  - simpl render. rewrite hex_value_app, IH. simpl length.
    unfold hex_value; cbn [fold_left].
    rewrite intToHex_value by apply mod16_range.
    change (Z.of_nat 1) with 1%Z; rewrite Z.pow_1_r.
    rewrite Nat2Z.inj_succ, Z.pow_succ_r by lia.
    rewrite Z.rem_mul_r by (try apply Z.pow_pos_nonneg; lia).
    lia.
Qed.

(** ** Digit-wise addition *)

Lemma addHexDigits_value (a b k : ascii) :
  (0 <= hexDigitToInt a + hexDigitToInt b + 16 * hexDigitToInt k)%Z ->
  addHexDigits a b k =
  (intToHex ((hexDigitToInt a + hexDigitToInt b + 16 * hexDigitToInt k) mod 16),
   intToHex ((hexDigitToInt a + hexDigitToInt b + 16 * hexDigitToInt k) / 16)).
Proof.
  intros H. unfold addHexDigits.
  rewrite Z.rem_mod_nonneg, Z.quot_div_nonneg by lia. reflexivity.
Qed.

Lemma digitSum_range (ds : list ascii) :
  forallb hexchar ds = true ->
  (0 <= digitSum ds <= 15 * Z.of_nat (length ds))%Z.
Proof.
  induction ds as [|d ds IH]; simpl; intros H; [lia|].
  apply andb_prop in H as [Hd Hds]. apply hexchar_range in Hd.
  specialize (IH Hds). lia.
Qed.

(** The state [(digit, carry)] of a column holding the running total [T]. *)
Lemma fold_columnStep (ds : list ascii) (T : Z) :
  forallb hexchar ds = true ->
  (0 <= T)%Z -> (T + 15 * Z.of_nat (length ds) < 256)%Z ->
  fold_left columnStep ds (intToHex (T mod 16), intToHex (T / 16))
  = (intToHex ((T + digitSum ds) mod 16), intToHex ((T + digitSum ds) / 16)).
Proof.
  revert T; induction ds as [|d ds IH]; intros T Hds HT Hb.
  - simpl. rewrite Z.add_0_r. reflexivity.
  - simpl in Hds. apply andb_prop in Hds as [Hd Hds].
    pose proof (hexchar_range d Hd) as Hdr. simpl length in Hb.
    cbn [fold_left]. unfold columnStep at 2.
    assert (Hq : (0 <= T / 16 <= 15)%Z).
    { split; [apply Z.div_pos|apply Z.div_le_upper_bound]; lia. }
    pose proof (mod16_range T) as Hm.
    rewrite addHexDigits_value; rewrite !intToHex_value by assumption; [|lia].
    replace (T mod 16 + hexDigitToInt d + 16 * (T / 16))%Z with (T + hexDigitToInt d)%Z
      by (pose proof (Z.div_mod T 16); lia).
    rewrite IH by (assumption || lia). simpl digitSum. rewrite Z.add_assoc. reflexivity.
Qed.

Lemma column_spec (cin d : ascii) (ds : list ascii) :
  (0 <= hexDigitToInt cin <= 15)%Z ->
  forallb hexchar (d :: ds) = true ->
  (hexDigitToInt cin + 15 + 15 * Z.of_nat (length ds) < 256)%Z ->
  column cin (d :: ds)
  = (intToHex ((hexDigitToInt cin + digitSum (d :: ds)) mod 16),
     intToHex ((hexDigitToInt cin + digitSum (d :: ds)) / 16)).
Proof.
  intros Hc Hall Hb. pose proof Hall as Hall'.
  simpl in Hall. apply andb_prop in Hall as [Hd Hds].
  pose proof (hexchar_range d Hd) as Hdr.
  unfold column. cbn [fold_left]. unfold columnStep at 2.
  rewrite addHexDigits_value by (vm_compute (hexDigitToInt ZERO); lia).
  change (hexDigitToInt ZERO) with 0%Z. rewrite Z.mul_0_r, Z.add_0_r.
  rewrite fold_columnStep by (auto; lia).
  simpl digitSum. rewrite Z.add_assoc. reflexivity.
Qed.

(** ** The summation loop *)

Lemma firstn_S_snoc {A} (k : nat) (l : list A) (d : A) :
  (k < length l)%nat -> firstn (S k) l = firstn k l ++ [nth k l d].
Proof.
  revert l; induction k as [|k IH]; intros [|x l] H; simpl in *; try lia.
  - reflexivity.
  - rewrite (IH l) by lia. reflexivity.
Qed.

Lemma wellFormedRows_pred (k : nat) rows :
  wellFormedRows (S k) rows -> wellFormedRows k rows.
Proof.
  unfold wellFormedRows. intros H. eapply Forall_impl; [|exact H].
  intros row [H1 H2]; split; [lia|exact H2].
Qed.

Lemma column_digits_hexchar (k : nat) rows :
  wellFormedRows (S k) rows ->
  forallb hexchar (map (fun row => nth k row NUL) rows) = true.
Proof.
  unfold wellFormedRows. induction 1 as [|row rows [Hl Hh] _ IH]; [reflexivity|].
  simpl. rewrite IH, andb_true_r.
  rewrite forallb_forall in Hh. apply Hh, nth_In. lia.
Qed.

Lemma prefixSum_succ (k : nat) rows :
  wellFormedRows (S k) rows ->
  prefixSum (S k) rows
  = (16 * prefixSum k rows + digitSum (map (fun row => nth k row NUL) rows))%Z.
Proof.
  unfold wellFormedRows. induction 1 as [|row rows [Hl Hh] _ IH]; [reflexivity|].
  unfold prefixSum in *; cbn [fold_right map]. rewrite IH.
  rewrite (firstn_S_snoc k row NUL) by lia.
  rewrite hex_value_app. cbn [length].
  change (hex_value [nth k row NUL]) with (hexDigitToInt (nth k row NUL)).
  change (Z.of_nat 1) with 1%Z. rewrite Z.pow_1_r.
  cbn [digitSum fold_right]. fold (digitSum (map (fun row => nth k row NUL) rows)).
  lia.
Qed.

Lemma prefixSum_range (k : nat) rows :
  wellFormedRows k rows -> (0 <= prefixSum k rows)%Z.
Proof.
  unfold wellFormedRows. induction 1 as [|row rows [Hl Hh] _ IH]; [reflexivity|].
  unfold prefixSum in *; cbn [fold_right].
  assert (forallb hexchar (firstn k row) = true).
  { rewrite forallb_forall in *. intros x Hx. apply Hh.
    rewrite <- (firstn_skipn k row). apply in_or_app. left; exact Hx. }
  pose proof (hex_value_range (firstn k row) H). lia.
Qed.

(** [sumLoop] over four rows computes the low [k] digits of the sum of
    the rows' [k]-digit prefixes plus the incoming carry, and the carry
    out of column [0]. *)
Lemma sumLoop_spec (k : nat) rows (c : Z) (acc : list ascii) :
  length rows = 4%nat -> wellFormedRows k rows -> (0 <= c <= 15)%Z ->
  sumLoop k rows (intToHex c) acc
  = (render k (prefixSum k rows + c) ++ acc,
     intToHex ((prefixSum k rows + c) / 16 ^ Z.of_nat k)).
Proof.
  revert c acc; induction k as [|k IH]; intros c acc Hlen Hwf Hc.
  - assert (H0 : prefixSum 0 rows = 0%Z).
    { clear. induction rows as [|r rows IH]; [reflexivity|]. exact IH. }
    simpl. rewrite H0, Z.div_1_r. reflexivity.
  - cbn [sumLoop].
    pose proof (column_digits_hexchar k rows Hwf) as Hcol.
    pose proof (digitSum_range _ Hcol) as Hsum.
    rewrite length_map, Hlen in Hsum.
    destruct rows as [|r0 rest]; [discriminate|].
    cbn [map] in Hcol, Hsum |- *.
    rewrite column_spec;
      [| rewrite intToHex_value; lia | exact Hcol
       | rewrite intToHex_value, length_map by lia; simpl in Hlen; lia].
    rewrite intToHex_value by lia.
    set (col := digitSum (nth k r0 NUL :: map (fun row => nth k row NUL) rest)) in *.
    rewrite IH; [| exact Hlen | apply wellFormedRows_pred, Hwf
                 | split; [apply Z.div_pos|apply Z.div_le_upper_bound]; lia].
    rewrite prefixSum_succ by exact Hwf. cbn [map]. fold col.
    cbn [render]. rewrite <- app_assoc. cbn [app].
    replace (16 * prefixSum k (r0 :: rest) + col + c)%Z
      with (prefixSum k (r0 :: rest) * 16 + (c + col))%Z by lia.
    rewrite Z.div_add_l by lia.
    rewrite Z.add_comm with (n := (prefixSum k (r0 :: rest) * 16)%Z), Z.mod_add by lia.
    rewrite Nat2Z.inj_succ, Z.pow_succ_r by lia.
    rewrite <- Z.div_div by (try apply Z.pow_pos_nonneg; lia).
    rewrite Z.add_comm with (n := (c + col)%Z), Z.div_add_l by lia.
    reflexivity.
Qed.

(** ** [padAndAlignNumbers] *)

Lemma doubleUntil_spec (lenA lenB fuel j : nat) :
  let K := Nat.log2_up (Nat.max lenA lenB) in
  (j <= K)%nat -> (K - j <= fuel)%nat ->
  doubleUntil fuel (2 ^ j) lenA lenB = 2 ^ K.
Proof.
  intros K. revert j; induction fuel as [|f IH]; intros j Hj Hf.
  - simpl. replace j with K by lia. reflexivity.
  - cbn [doubleUntil].
    destruct (Nat.eq_dec j K) as [->|Hne].
    + assert (Hle : (Nat.max lenA lenB <= 2 ^ K)%nat).
      { destruct (Nat.eq_dec (Nat.max lenA lenB) 0) as [E|E].
        - rewrite E. apply Nat.le_0_l.
        - apply Nat.log2_up_le_pow2; [lia|]. unfold K; lia. }
      replace ((2 ^ K <? lenA) || (2 ^ K <? lenB)) with false; [reflexivity|].
      symmetry. apply orb_false_iff; split; apply Nat.ltb_ge; lia.
    + assert (Hlt : (2 ^ j < Nat.max lenA lenB)%nat).
      { apply Nat.log2_up_lt_pow2; [|unfold K in *; lia].
        destruct (Nat.eq_dec (Nat.max lenA lenB) 0) as [E|E]; [|lia].
        exfalso. unfold K in Hj, Hne. rewrite E in Hj, Hne. change (Nat.log2_up 0) with 0%nat in Hj, Hne. lia. }
      replace ((2 ^ j <? lenA) || (2 ^ j <? lenB)) with true.
      * replace (2 ^ j * 2)%nat with (2 ^ S j)%nat by (rewrite Nat.pow_succ_r'; lia).
        apply IH; lia.
      * symmetry. apply orb_true_iff. apply Nat.max_lt_iff in Hlt.
        destruct Hlt; [left|right]; apply Nat.ltb_lt; assumption.
Qed.

Lemma computeMaxLength_spec (lenA lenB : nat) :
  computeMaxLength lenA lenB = nextPow2 (Nat.max lenA lenB).
Proof.
  unfold computeMaxLength, nextPow2.
  apply (doubleUntil_spec lenA lenB (lenA + lenB) 0); [lia|].
  pose proof (Nat.log2_up_le_lin (Nat.max lenA lenB) (Nat.le_0_l _)). lia.
Qed.

Lemma nextPow2_bounds (m : nat) :
  (m <= nextPow2 m)%nat /\
  (forall k, (m <= 2 ^ k)%nat -> (nextPow2 m <= 2 ^ k)%nat).
Proof.
  unfold nextPow2. destruct (Nat.eq_dec m 0) as [->|Hm].
  - split; [lia|]. intros k _. simpl. pose proof (Nat.pow_nonzero 2 k). lia.
  - split.
    + apply Nat.log2_up_le_pow2; lia.
    + intros k Hk. apply Nat.pow_le_mono_r; [lia|].
      apply Nat.log2_up_le_pow2; lia.
Qed.

Lemma nextPow2_pow2 (k : nat) : nextPow2 (2 ^ k) = (2 ^ k)%nat.
Proof. unfold nextPow2. rewrite Nat.log2_up_pow2 by lia. reflexivity. Qed.

Lemma cstr_id (s : list ascii) : ~ In NUL s -> cstr s = s.
Proof.
  induction s as [|c s IH]; intros H; [reflexivity|]. simpl.
  destruct (Ascii.eqb_spec c NUL) as [E|E].
  - subst. exfalso; apply H; left; reflexivity.
  - rewrite IH; [reflexivity|]. intros Hin; apply H; right; exact Hin.
Qed.

Lemma hexchar_no_NUL (s : list ascii) : forallb hexchar s = true -> ~ In NUL s.
Proof.
  intros H Hin. rewrite forallb_forall in H. specialize (H NUL Hin).
  vm_compute in H. discriminate.
Qed.

(** ** Parsing the input *)

Lemma getline_hex (L r : list ascii) :
  forallb hexchar L = true ->
  getline (L ++ NL :: r) = Some (L ++ [NL], r).
Proof.
  intros H.
  assert (Ha : getline_aux (L ++ NL :: r) = (L ++ [NL], r)).
  { induction L as [|c L IH]; [reflexivity|].
    simpl in H. apply andb_prop in H as [Hc HL].
    destruct (hexchar_facts c Hc) as (_ & Hnl & _).
    cbn [app getline_aux]. rewrite Hnl, IH by exact HL. reflexivity. }
  destruct L; exact (f_equal Some Ha).
Qed.

Lemma isValidHexadecimal_line (L : list ascii) :
  forallb hexchar L = true -> isValidHexadecimal (L ++ [NL]) = true.
Proof.
  induction L as [|c L IH]; intros H; [reflexivity|].
  simpl in H. apply andb_prop in H as [Hc HL].
  destruct (hexchar_facts c Hc) as (Hnul & _ & Hv & _).
  cbn [app isValidHexadecimal]. rewrite Hnul, Hv. apply IH, HL.
Qed.

Lemma trimNewline_line (L : list ascii) : trimNewline (L ++ [NL]) = L.
Proof.
  unfold trimNewline. rewrite rev_app_distr. cbn. rewrite rev_involutive. reflexivity.
Qed.

Lemma emptyLine_line (L : list ascii) : L <> [] -> emptyLine (L ++ [NL]) = false.
Proof. destruct L as [|c [|d L]]; [congruence|reflexivity|reflexivity]. Qed.

Lemma readInput_valid (A B r : list ascii) :
  A <> [] -> B <> [] -> forallb hexchar A = true -> forallb hexchar B = true ->
  readInput (A ++ NL :: B ++ NL :: r) = Some (A, B).
Proof.
  intros HA HB hA hB. unfold readInput.
  rewrite getline_hex by exact hA. rewrite emptyLine_line by exact HA.
  rewrite getline_hex by exact hB. rewrite emptyLine_line by exact HB.
  rewrite !isValidHexadecimal_line by assumption. cbn [negb].
  rewrite !cstr_id.
  - rewrite !trimNewline_line. reflexivity.
  - intros Hin. apply in_app_or in Hin as [Hin|[E|[]]];
      [exact (hexchar_no_NUL B hB Hin)|discriminate].
  - intros Hin. apply in_app_or in Hin as [Hin|[E|[]]];
      [exact (hexchar_no_NUL A hA Hin)|discriminate].
Qed.

(** ** Shifting *)

Lemma nth_repeat_lt {A} (x d : A) (m j : nat) : (j < m)%nat -> nth j (repeat x m) d = x.
Proof.
  revert j; induction m as [|m IH]; intros [|j] H; simpl; try lia; auto.
  apply IH; lia.
Qed.

Lemma nth_shiftRow (i lenA : nat) (ir : list ascii) (j : nat) :
  (j < 2 * lenA)%nat -> nth j (shiftRow i lenA ir) NUL = shiftedCell i lenA ir j.
Proof.
  intros Hj. unfold shiftRow.
  rewrite nth_indep with (d' := shiftedCell i lenA ir 0)
    by (rewrite length_map, length_seq; lia).
  rewrite map_nth, seq_nth by lia. reflexivity.
Qed.

Lemma length_shiftRow (i lenA : nat) (ir : list ascii) :
  length (shiftRow i lenA ir) = (2 * lenA)%nat.
Proof. unfold shiftRow. rewrite length_map, length_seq. reflexivity. Qed.

Ltac nth_app_cases :=
  repeat match goal with
  | |- context [nth ?j (?l1 ++ ?l2) ?d] =>
      first [ rewrite (app_nth1 l1 l2 d) by (rewrite ?repeat_length; lia)
            | rewrite (app_nth2 l1 l2 d) by (rewrite ?repeat_length; lia) ]
  | |- context [nth ?j (repeat ?x ?m) ?d] =>
      rewrite (nth_repeat_lt x d m j) by (rewrite ?repeat_length; lia)
  end.

Ltac shift_ext HP :=
  apply nth_ext with (d := NUL) (d' := NUL);
  [ rewrite length_shiftRow, ?length_app, ?repeat_length, HP; lia
  | intros j Hj; rewrite length_shiftRow in Hj;
    rewrite nth_shiftRow by lia; unfold shiftedCell; cbn [Nat.eqb orb];
    repeat match goal with
    | |- context [?a <? ?b] => destruct (Nat.ltb_spec a b)
    end;
    nth_app_cases; rewrite ?repeat_length, ?HP;
    try (f_equal; lia); try reflexivity; lia ].

Lemma half_double (m : nat) : (2 * m / 2)%nat = m.
Proof. rewrite Nat.mul_comm. apply Nat.div_mul. lia. Qed.

Lemma shiftRow_0 (m : nat) (P r : list ascii) :
  length P = (2 * m)%nat ->
  shiftRow 0 (2 * m) (P ++ r) = P ++ repeat ZERO (2 * m).
Proof. intros HP. shift_ext HP. Qed.

Lemma shiftRow_mid (i m : nat) (P r : list ascii) :
  (i = 1 \/ i = 2)%nat -> length P = (2 * m)%nat ->
  shiftRow i (2 * m) (P ++ r) = repeat ZERO m ++ P ++ repeat ZERO m.
Proof.
  intros Hi HP.
  assert (Hb : ((i =? 0) = false) /\ ((i =? 1) || (i =? 2)) = true).
  { destruct Hi as [-> | ->]; split; reflexivity. }
  destruct Hb as [Hb0 Hb1].
  apply nth_ext with (d := NUL) (d' := NUL).
  - rewrite length_shiftRow, !length_app, !repeat_length, HP; lia.
  - intros j Hj; rewrite length_shiftRow in Hj.
    rewrite nth_shiftRow by lia; unfold shiftedCell. rewrite Hb0, Hb1, half_double.
    repeat match goal with
    | |- context [?a <? ?b] => destruct (Nat.ltb_spec a b)
    end;
    nth_app_cases; rewrite ?repeat_length, ?HP;
    try (f_equal; lia); try reflexivity; lia.
Qed.

Lemma shiftRow_3 (m : nat) (P r : list ascii) :
  length P = (2 * m)%nat ->
  shiftRow 3 (2 * m) (P ++ r) = repeat ZERO (2 * m) ++ P.
Proof. intros HP. shift_ext HP. Qed.

(** ** Combining the four partial products *)

Lemma pow16_add (a b : nat) :
  (16 ^ Z.of_nat (a + b) = 16 ^ Z.of_nat a * 16 ^ Z.of_nat b)%Z.
Proof. rewrite Nat2Z.inj_add, Z.pow_add_r by lia. reflexivity. Qed.

Lemma pow16_pos (a : nat) : (0 < 16 ^ Z.of_nat a)%Z.
Proof. apply Z.pow_pos_nonneg; lia. Qed.

Lemma render_value_small (w : nat) (v : Z) :
  (0 <= v < 16 ^ Z.of_nat w)%Z -> hex_value (render w v) = v.
Proof. intros H. rewrite render_value. apply Z.mod_small, H. Qed.

Lemma forallb_repeat_zero (n : nat) : forallb hexchar (repeat ZERO n) = true.
Proof. induction n as [|n IH]; [reflexivity|]. exact IH. Qed.

Lemma forallb_halves (m : nat) (A : list ascii) :
  forallb hexchar A = true ->
  forallb hexchar (firstn m A) = true /\ forallb hexchar (skipn m A) = true.
Proof.
  intros H. rewrite <- (firstn_skipn m A), forallb_app in H.
  apply andb_prop in H. exact H.
Qed.

Lemma product_range (m : nat) (X Y : list ascii) :
  length X = m -> length Y = m ->
  forallb hexchar X = true -> forallb hexchar Y = true ->
  (0 <= hex_value X * hex_value Y < 16 ^ Z.of_nat (2 * m))%Z.
Proof.
  intros HX HY hX hY.
  pose proof (hex_value_range X hX) as RX. pose proof (hex_value_range Y hY) as RY.
  rewrite HX in RX. rewrite HY in RY.
  replace (2 * m)%nat with (m + m)%nat by lia. rewrite pow16_add. nia.
Qed.

Lemma hv_shift_high (R : list ascii) (n : nat) :
  hex_value (R ++ repeat ZERO n) = (hex_value R * 16 ^ Z.of_nat n)%Z.
Proof. rewrite hex_value_app, hex_value_repeat_zero, repeat_length. lia. Qed.

Lemma hv_shift_mid (R : list ascii) (m : nat) :
  hex_value (repeat ZERO m ++ R ++ repeat ZERO m) = (hex_value R * 16 ^ Z.of_nat m)%Z.
Proof. rewrite hex_value_app, hex_value_repeat_zero, hv_shift_high. lia. Qed.

Lemma hv_shift_low (R : list ascii) (n : nat) :
  hex_value (repeat ZERO n ++ R) = hex_value R.
Proof. rewrite hex_value_app, hex_value_repeat_zero. lia. Qed.

(** The four products of the halves, as read back from the children
    (each line possibly followed by more bytes), sum up to the product of
    the operands, with no carry out of the most significant column. *)
Lemma combine_spec (m : nat) (Ah Al Bh Bl r0 r1 r2 r3 : list ascii) :
  length Ah = m -> length Al = m -> length Bh = m -> length Bl = m ->
  forallb hexchar Ah = true -> forallb hexchar Al = true ->
  forallb hexchar Bh = true -> forallb hexchar Bl = true ->
  sumLoop (2 * (2 * m))
    (shiftResults (2 * m)
       [render (2 * m) (hex_value Ah * hex_value Bh) ++ r0;
        render (2 * m) (hex_value Ah * hex_value Bl) ++ r1;
        render (2 * m) (hex_value Al * hex_value Bh) ++ r2;
        render (2 * m) (hex_value Al * hex_value Bl) ++ r3]) ZERO []
  = (render (2 * (2 * m)) (hex_value (Ah ++ Al) * hex_value (Bh ++ Bl)), ZERO).
Proof.
  intros L1 L2 L3 L4 h1 h2 h3 h4.
  pose proof (product_range m Ah Bh L1 L3 h1 h3) as R0.
  pose proof (product_range m Ah Bl L1 L4 h1 h4) as R1.
  pose proof (product_range m Al Bh L2 L3 h2 h3) as R2.
  pose proof (product_range m Al Bl L2 L4 h2 h4) as R3.
  unfold shiftResults. cbn [map nth].
  rewrite shiftRow_0, shiftRow_3, !shiftRow_mid by (auto; apply render_length).
  change (sumLoop ?k ?rows ZERO []) with (sumLoop k rows (intToHex 0) []).
  rewrite sumLoop_spec; [| reflexivity | | lia].
  2: { unfold wellFormedRows.
       repeat constructor;
         rewrite ?length_app, ?repeat_length, ?render_length; try lia;
         rewrite ?forallb_app, ?forallb_repeat_zero, ?render_hexchar; reflexivity. }
  unfold prefixSum. cbn [fold_right].
  rewrite !firstn_all2
    by (rewrite ?length_app, ?repeat_length, ?render_length; lia).
  rewrite !hv_shift_mid, !hv_shift_high, !hv_shift_low.
  rewrite !render_value_small by assumption.
  rewrite !hex_value_app, L2, L4.
  assert (E2 : (16 ^ Z.of_nat (2 * m) = 16 ^ Z.of_nat m * 16 ^ Z.of_nat m)%Z).
  { replace (2 * m)%nat with (m + m)%nat by lia. apply pow16_add. }
  assert (E4 : (16 ^ Z.of_nat (2 * (2 * m))
                = 16 ^ Z.of_nat m * 16 ^ Z.of_nat m * (16 ^ Z.of_nat m * 16 ^ Z.of_nat m))%Z).
  { replace (2 * (2 * m))%nat with (2 * m + 2 * m)%nat by lia.
    rewrite pow16_add, E2. reflexivity. }
  rewrite E4. rewrite E2 in R0, R1, R2, R3 |- *.
  assert ((0 <= hex_value Ah < 16 ^ Z.of_nat m)%Z /\ (0 <= hex_value Al < 16 ^ Z.of_nat m)%Z /\
          (0 <= hex_value Bh < 16 ^ Z.of_nat m)%Z /\ (0 <= hex_value Bl < 16 ^ Z.of_nat m)%Z)
    as (? & ? & ? & ?).
  { pose proof (hex_value_range Ah h1). pose proof (hex_value_range Al h2).
    pose proof (hex_value_range Bh h3). pose proof (hex_value_range Bl h4).
    rewrite L1 in *. rewrite L2 in *. rewrite L3 in *. rewrite L4 in *.
    repeat split; lia. }
  set (M := (16 ^ Z.of_nat m)%Z) in *.
  set (a1 := hex_value Ah) in *. set (a2 := hex_value Al) in *.
  set (b1 := hex_value Bh) in *. set (b2 := hex_value Bl) in *.
  assert (a1 * M + a2 < M * M)%Z by nia.
  assert (b1 * M + b2 < M * M)%Z by nia.
  match goal with
  | |- (render _ ?X ++ [], intToHex (?Y / _)) = _ =>
      replace X with ((a1 * M + a2) * (b1 * M + b2))%Z by ring;
      replace Y with ((a1 * M + a2) * (b1 * M + b2))%Z by ring
  end.
  rewrite app_nil_r. f_equal.
  rewrite Z.div_small; [reflexivity|]. split; nia.
Qed.

(** ** Splitting, padding and the base case *)

Lemma splitNumbers_halves (m : nat) (A B : list ascii) :
  length A = (2 * m)%nat -> length B = (2 * m)%nat -> ~ In NUL A ->
  splitNumbers A B = (firstn m A, skipn m A, firstn m B, skipn m B).
Proof.
  intros HA HB HN. unfold splitNumbers, strlen. rewrite cstr_id, HA, half_double by exact HN.
  rewrite (firstn_all2 (skipn m A)), (firstn_all2 (skipn m B))
    by (rewrite length_skipn; lia).
  reflexivity.
Qed.

Lemma padAndAlignNumbers_spec (A B : list ascii) :
  ~ In NUL A -> ~ In NUL B ->
  padAndAlignNumbers A B =
  (repeat ZERO (nextPow2 (Nat.max (length A) (length B)) - length A) ++ A,
   repeat ZERO (nextPow2 (Nat.max (length A) (length B)) - length B) ++ B).
Proof.
  intros HA HB. unfold padAndAlignNumbers, strlen.
  rewrite !cstr_id by assumption. rewrite computeMaxLength_spec. reflexivity.
Qed.

Lemma padAndAlignNumbers_pow2 (k : nat) (A B : list ascii) :
  ~ In NUL A -> ~ In NUL B -> length A = (2 ^ k)%nat -> length B = (2 ^ k)%nat ->
  padAndAlignNumbers A B = (A, B).
Proof.
  intros NA NB HA HB. rewrite padAndAlignNumbers_spec by assumption.
  rewrite HA, HB, Nat.max_id, nextPow2_pow2, Nat.sub_diag. reflexivity.
Qed.

Lemma format_02x_byte (p : Z) :
  (0 <= p < 256)%Z -> format_02x p = render 2 p.
Proof.
  intros Hp. unfold format_02x.
  rewrite (Z.mod_small p (2 ^ 32)) by lia.
  cbn [hexMin render app].
  destruct (Z.eqb_spec (p / 16) 0) as [E|E].
  - rewrite E. reflexivity.
  - assert (E' : (p / 16 / 16 = 0)%Z).
    { apply Z.div_small. split; [apply Z.div_pos; lia|].
      apply Z.div_lt_upper_bound; lia. }
    rewrite E'. cbn [Z.eqb]. reflexivity.
Qed.

Lemma pow2_pos (k : nat) : (1 <= 2 ^ k)%nat.
Proof. pose proof (Nat.pow_nonzero 2 k). lia. Qed.

(** ** The recursion *)

Lemma mulBody_correct (k : nat) :
  forall (f : nat) (A B : list ascii),
  length A = (2 ^ k)%nat -> length B = (2 ^ k)%nat ->
  forallb hexchar A = true -> forallb hexchar B = true -> (k <= f)%nat ->
  mulBody (intmul f) A B
  = (EXIT_SUCCESS, render (2 * 2 ^ k) (hex_value A * hex_value B) ++ [NL]).
Proof.
  induction k as [|k IH]; intros f A B HA HB hA hB Hf.
  - (* one digit each: [printf("%02x\n", res)] *)
    destruct A as [|a [|? ?]]; try discriminate.
    destruct B as [|b [|? ?]]; try discriminate.
    simpl in hA, hB. rewrite andb_true_r in hA, hB.
    destruct (hexchar_facts a hA) as (Na & _ & _ & La).
    destruct (hexchar_facts b hB) as (Nb & _ & _ & Lb).
    unfold mulBody, strlen. cbn [cstr]. rewrite ?Na, ?Nb. cbn [length hd Nat.ltb Nat.leb Nat.eqb].
    rewrite La, Lb.
    pose proof (hexchar_range a hA). pose proof (hexchar_range b hB).
    rewrite format_02x_byte by nia. reflexivity.
  - set (m := (2 ^ k)%nat) in *.
    assert (Hm : (2 ^ S k = 2 * m)%nat) by (rewrite Nat.pow_succ_r'; reflexivity).
    rewrite Hm in HA, HB |- *.
    pose proof (pow2_pos k) as Hm1. fold m in Hm1.
    destruct f as [|f]; [lia|].
    (* a forked child, on the request [X\nY\n] *)
    assert (Hchild : forall X Y, length X = m -> length Y = m ->
              forallb hexchar X = true -> forallb hexchar Y = true ->
              intmul (S f) (sendInputToChild X Y)
              = (EXIT_SUCCESS, render (2 * m) (hex_value X * hex_value Y) ++ [NL])).
    { intros X Y LX LY hX hY. unfold sendInputToChild. cbn [intmul].
      rewrite readInput_valid
        by (try assumption; intros E; subst; simpl in *; lia).
      rewrite (padAndAlignNumbers_pow2 k) by (try apply hexchar_no_NUL; assumption).
      apply IH; (assumption || lia). }
    unfold mulBody. unfold strlen. rewrite cstr_id by (apply hexchar_no_NUL; exact hA).
    rewrite HA.
    replace (1 <? 2 * m)%nat with true by (symmetry; apply Nat.ltb_lt; lia).
    rewrite (splitNumbers_halves m A B HA HB (hexchar_no_NUL A hA)).
    destruct (forallb_halves m A hA) as [hA1 hA2].
    destruct (forallb_halves m B hB) as [hB1 hB2].
    assert (LA1 : length (firstn m A) = m) by (rewrite length_firstn; lia).
    assert (LA2 : length (skipn m A) = m) by (rewrite length_skipn; lia).
    assert (LB1 : length (firstn m B) = m) by (rewrite length_firstn; lia).
    assert (LB2 : length (skipn m B) = m) by (rewrite length_skipn; lia).
    cbn [map]. rewrite !Hchild by assumption.
    cbn [map fst snd].
    change (snd (waitForChildren [EXIT_SUCCESS; EXIT_SUCCESS; EXIT_SUCCESS; EXIT_SUCCESS]))
      with true.
    cbn [map readResults].
    rewrite !getline_hex by apply render_hexchar.
    cbv beta iota zeta.
    rewrite combine_spec by assumption.
    rewrite !firstn_skipn. reflexivity.
Qed.

(** ** Output digits and parsing of invalid lines *)

Lemma intToHex_lowerhex (v : Z) : (0 <= v <= 15)%Z -> lowerhex (intToHex v) = true.
Proof.
  apply (Z_digit_cases (fun v => lowerhex (intToHex v) = true)).
  intros n Hn. do 16 (destruct n as [|n]; [reflexivity|]). lia.
Qed.

Lemma render_lowerhex (w : nat) (v : Z) : forallb lowerhex (render w v) = true.
Proof.
  revert v; induction w as [|w IH]; intros v; [reflexivity|].
  simpl. rewrite forallb_app, IH. simpl.
  rewrite intToHex_lowerhex by apply mod16_range. reflexivity.
Qed.

Lemma getline_noNL (L r : list ascii) :
  ~ In NL L -> getline (L ++ NL :: r) = Some (L ++ [NL], r).
Proof.
  intros H.
  assert (Ha : getline_aux (L ++ NL :: r) = (L ++ [NL], r)).
  { induction L as [|c L IH]; [reflexivity|].
    cbn [app getline_aux].
    destruct (Ascii.eqb_spec c NL) as [E|E].
    - exfalso; apply H; left; congruence.
    - rewrite IH by (intros Hin; apply H; right; exact Hin). reflexivity. }
  destruct L; exact (f_equal Some Ha).
Qed.

Lemma isValidHexadecimal_invalid (L : list ascii) :
  ~ In NUL L -> existsb (fun c => negb (isValidHexChar c)) L = true ->
  isValidHexadecimal (L ++ [NL]) = false.
Proof.
  induction L as [|c L IH]; intros HN HE; [discriminate|].
  cbn [app isValidHexadecimal].
  destruct (Ascii.eqb_spec c NUL) as [E|E]; [exfalso; apply HN; left; congruence|].
  simpl in HE. destruct (isValidHexChar c); [|reflexivity].
  apply IH; [intros Hin; apply HN; right; exact Hin | exact HE].
Qed.

Lemma emptyLine_nonempty (L : list ascii) :
  existsb (fun c => negb (isValidHexChar c)) L = true -> emptyLine (L ++ [NL]) = false.
Proof. intros H. apply emptyLine_line. intros ->. discriminate. Qed.

(** Without NUL bytes, a line with a character outside [0-9a-fA-F] is
    refused: the process exits with [EXIT_FAILURE] and writes nothing. *)
Lemma invalid_first_line_rejected (fuel : nat) (L1 rest : list ascii) :
  ~ In NUL L1 -> ~ In NL L1 -> existsb (fun c => negb (isValidHexChar c)) L1 = true ->
  intmul fuel (L1 ++ NL :: rest) = (EXIT_FAILURE, []).
Proof.
  intros HN HL HE. destruct fuel as [|f]; [reflexivity|]. cbn [intmul].
  unfold readInput. rewrite getline_noNL by exact HL.
  rewrite emptyLine_nonempty by exact HE.
  destruct (getline rest) as [[l2 r2]|]; [|reflexivity].
  destruct (emptyLine l2); [reflexivity|].
  rewrite isValidHexadecimal_invalid by assumption. reflexivity.
Qed.

Lemma invalid_second_line_rejected (fuel : nat) (L1 L2 rest : list ascii) :
  ~ In NL L1 -> ~ In NUL L2 -> ~ In NL L2 ->
  existsb (fun c => negb (isValidHexChar c)) L2 = true ->
  intmul fuel (L1 ++ NL :: L2 ++ NL :: rest) = (EXIT_FAILURE, []).
Proof.
  intros HL1 HN HL HE. destruct fuel as [|f]; [reflexivity|]. cbn [intmul].
  unfold readInput. rewrite getline_noNL by exact HL1.
  destruct (emptyLine (L1 ++ [NL])); [reflexivity|].
  rewrite getline_noNL by exact HL.
  rewrite emptyLine_nonempty by exact HE.
  rewrite (isValidHexadecimal_invalid L2) by assumption.
  destruct (isValidHexadecimal (L1 ++ [NL])); reflexivity.
Qed.

(** Every failure of [main] after parsing writes nothing to stdout. *)
Lemma isValidHexChar_nonhex (c : ascii) :
  hexchar c = false -> c <> NL -> isValidHexChar c = false.
Proof.
  ascii_cases c; intros H1 H2; vm_compute in H1 |- *;
    try reflexivity; try discriminate; exfalso; apply H2; reflexivity.
Qed.

Lemma existsb_nonhex (L : list ascii) :
  ~ In NL L -> existsb (fun c => negb (hexchar c)) L = true ->
  existsb (fun c => negb (isValidHexChar c)) L = true.
Proof.
  intros HL H. apply existsb_exists in H as (c & Hin & Hc).
  apply existsb_exists. exists c. split; [exact Hin|].
  apply negb_true_iff in Hc. rewrite isValidHexChar_nonhex; [reflexivity|exact Hc|].
  intros ->. exact (HL Hin).
Qed.

Lemma mulBody_failure_silent (child : list ascii -> Z * list ascii) (A B : list ascii) :
  fst (mulBody child A B) <> EXIT_SUCCESS -> snd (mulBody child A B) = [].
Proof.
  unfold mulBody.
  destruct (1 <? strlen A).
  - destruct (splitNumbers A B) as [[[Ah Al] Bh] Bl].
    destruct (snd (waitForChildren _)); [|reflexivity].
    destruct (readResults _) as [irs|]; [|reflexivity].
    destruct (sumLoop _ _ _ _). simpl. intros H; exfalso; apply H; reflexivity.
  - destruct (strlen A =? 1); simpl; intros H; exfalso; apply H; reflexivity.
Qed.

Lemma waitFrom_spec (statuses : list Z) (i : nat) :
  let '(collected, ok) := waitFrom i statuses in
  (ok = true -> collected = seq i (length statuses) /\ Forall (fun s => s = EXIT_SUCCESS) statuses) /\
  (ok = false -> exists j, collected = seq i (S j) /\ nth j statuses 0%Z <> EXIT_SUCCESS /\
                           (forall j', (j' < j)%nat -> nth j' statuses 0%Z = EXIT_SUCCESS)).
Proof.
  revert i; induction statuses as [|s r IH]; intros i; cbn [waitFrom].
  - split; [intros _; split; constructor|discriminate].
  - destruct (Z.eqb_spec s EXIT_SUCCESS) as [E|E].
    + specialize (IH (S i)). destruct (waitFrom (S i) r) as [collected ok].
      destruct IH as [IHt IHf]. split.
      * intros H. destruct (IHt H) as [-> HF]. split; [reflexivity|constructor; assumption].
      * intros H. destruct (IHf H) as (j & -> & Hj & Hlt). exists (S j).
        split; [reflexivity|]. split; [exact Hj|].
        intros [|j'] Hj'; [exact E|]. apply Hlt. lia.
    + split; [discriminate|]. intros _. exists 0%nat.
      split; [reflexivity|]. split; [exact E|]. intros j' Hj'; lia.
Qed.

(* ------------------------------------------------------------------ *)
(** * Claims *)

(** ** Conversions of single digits *)

Lemma isValidHexChar_hexchar (c : ascii) :
  isValidHexChar c = hexchar c || Ascii.eqb c NL.
Proof. ascii_cases c; reflexivity. Qed.

Lemma tolower_hexchar (c : ascii) :
  hexchar c = true -> hexchar (tolower c) = true.
Proof. intros H; ascii_cases c; vm_compute in H |- *; (reflexivity || discriminate). Qed.

Lemma intToHex_of_digit (c : ascii) :
  hexchar c = true -> intToHex (hexDigitToInt c) = tolower c.
Proof. intros H; ascii_cases c; vm_compute in H |- *; (reflexivity || discriminate). Qed.

Lemma hex_value_tolower (A : list ascii) :
  forallb hexchar A = true ->
  forallb hexchar (map tolower A) = true /\ hex_value (map tolower A) = hex_value A.
Proof.
  induction A as [|c A IH]; intros H; [split; reflexivity|].
  simpl in H. apply andb_prop in H as [Hc HA]. destruct (IH HA) as [IH1 IH2].
  cbn [map]. rewrite !hex_value_cons, length_map, IH2.
  destruct (hexchar_facts c Hc) as (_ & _ & _ & ->).
  split; [|reflexivity]. simpl. rewrite tolower_hexchar, IH1 by exact Hc. reflexivity.
Qed.

(** ** Lines and operands *)

Lemma getline_aux_noNL (L : list ascii) : ~ In NL L -> getline_aux L = (L, []).
Proof.
  induction L as [|c L IH]; intros H; [reflexivity|]. cbn [getline_aux].
  destruct (Ascii.eqb_spec c NL) as [E|E]; [subst; exfalso; apply H; left; reflexivity|].
  rewrite IH by (intros Hin; apply H; right; exact Hin). reflexivity.
Qed.

Lemma getline_aux_shape (s : list ascii) :
  let '(l, r) := getline_aux s in
  s = l ++ r /\ ((~ In NL l /\ r = []) \/ exists l', l = l' ++ [NL] /\ ~ In NL l').
Proof.
  induction s as [|c s IH].
  - split; [reflexivity|]. left. split; [intros []|reflexivity].
  - cbn [getline_aux]. destruct (Ascii.eqb_spec c NL) as [->|E].
    + split; [reflexivity|]. right. exists []. split; [reflexivity|intros []].
    + destruct (getline_aux s) as [l r]. destruct IH as [Hs [[Hl Hr]|(l' & Hl & Hl')]].
      * split; [rewrite Hs; reflexivity|]. left. split; [|exact Hr].
        intros [E'|Hin]; [exact (E E')|exact (Hl Hin)].
      * split; [rewrite Hs; reflexivity|]. right. exists (c :: l').
        split; [rewrite Hl; reflexivity|].
        intros [E'|Hin]; [exact (E E')|exact (Hl' Hin)].
Qed.

Lemma getline_shape (s l r : list ascii) :
  getline s = Some (l, r) ->
  s = l ++ r /\ ((~ In NL l /\ r = []) \/ exists l', l = l' ++ [NL] /\ ~ In NL l').
Proof.
  destruct s as [|c s]; [discriminate|]. intros H.
  assert (H' : getline_aux (c :: s) = (l, r))
    by (change (Some (getline_aux (c :: s)) = Some (l, r)) in H; congruence).
  pose proof (getline_aux_shape (c :: s)) as G. rewrite H' in G. exact G.
Qed.

Lemma isValidHexadecimal_snoc_NL (L : list ascii) :
  isValidHexadecimal (L ++ [NL]) = isValidHexadecimal L.
Proof.
  induction L as [|c L IH]; [reflexivity|]. cbn [app isValidHexadecimal].
  rewrite IH. reflexivity.
Qed.

Lemma cstr_app (x y : list ascii) :
  cstr (x ++ y) = if existsb (fun c => Ascii.eqb c NUL) x then cstr x else x ++ cstr y.
Proof.
  induction x as [|c x IH]; [reflexivity|]. cbn [app cstr existsb].
  destruct (Ascii.eqb c NUL); [reflexivity|]. rewrite IH. cbn [orb].
  destruct (existsb _ x); reflexivity.
Qed.

Lemma cstr_noNL (s : list ascii) : ~ In NL s -> ~ In NL (cstr s).
Proof.
  induction s as [|c s IH]; intros H; [exact H|]. cbn [cstr].
  destruct (Ascii.eqb c NUL); [intros []|].
  intros [E|Hin]; [apply H; left; exact E|].
  apply IH; [intros Hs; apply H; right; exact Hs|exact Hin].
Qed.

Lemma trimNewline_noNL (s : list ascii) : ~ In NL s -> trimNewline s = s.
Proof.
  intros H. unfold trimNewline. destruct (rev s) as [|c r] eqn:E; [reflexivity|].
  destruct (Ascii.eqb_spec c NL) as [->|]; [|reflexivity].
  exfalso. apply H. apply in_rev. rewrite E. left. reflexivity.
Qed.

Lemma trim_cstr_snoc_NL (B : list ascii) :
  ~ In NL B -> trimNewline (cstr (B ++ [NL])) = trimNewline (cstr B).
Proof.
  intros H. rewrite cstr_app, (trimNewline_noNL (cstr B)) by (apply cstr_noNL, H).
  destruct (existsb (fun c => Ascii.eqb c NUL) B) eqn:E.
  - apply trimNewline_noNL, cstr_noNL, H.
  - assert (EB : cstr B = B).
    { apply cstr_id. intros Hin.
      assert (existsb (fun c => Ascii.eqb c NUL) B = true)
        by (apply existsb_exists; exists NUL; split; [exact Hin|reflexivity]).
      congruence. }
    rewrite EB. change (cstr [NL]) with [NL]. apply trimNewline_line.
Qed.

Lemma valid_noNL_operand (x : list ascii) :
  ~ In NL x -> isValidHexadecimal x = true ->
  forallb hexchar (cstr x) = true /\ (length (cstr x) <= length x)%nat.
Proof.
  induction x as [|c x IH]; intros HN HV; [split; [reflexivity|simpl; lia]|].
  cbn [isValidHexadecimal] in HV. cbn [cstr].
  destruct (Ascii.eqb c NUL); [split; [reflexivity|simpl; lia]|].
  rewrite isValidHexChar_hexchar in HV.
  destruct (Ascii.eqb_spec c NL) as [->|E]; [exfalso; apply HN; left; reflexivity|].
  rewrite orb_false_r in HV. cbn [forallb length].
  destruct (hexchar c); [|discriminate].
  destruct IH as [IH1 IH2]; [intros Hin; apply HN; right; exact Hin|exact HV|].
  split; [exact IH1|lia].
Qed.

Lemma operand_of_line (l : list ascii) :
  (~ In NL l \/ exists l', l = l' ++ [NL] /\ ~ In NL l') ->
  isValidHexadecimal l = true ->
  forallb hexchar (trimNewline (cstr l)) = true /\
  (length (trimNewline (cstr l)) <= length l)%nat.
Proof.
  intros [HN|(l' & -> & HN)] HV.
  - rewrite trimNewline_noNL by (apply cstr_noNL, HN). apply valid_noNL_operand; assumption.
  - rewrite trim_cstr_snoc_NL, trimNewline_noNL by (apply cstr_noNL || idtac; exact HN).
    rewrite isValidHexadecimal_snoc_NL in HV.
    destruct (valid_noNL_operand l' HN HV) as [H1 H2].
    split; [exact H1|rewrite length_app; simpl; lia].
Qed.

Lemma readInput_operands (s A B : list ascii) :
  readInput s = Some (A, B) ->
  forallb hexchar A = true /\ forallb hexchar B = true /\
  (length A + length B < length s)%nat.
Proof.
  unfold readInput. intros H.
  destruct (getline s) as [[l1 r1]|] eqn:G1; [|discriminate].
  destruct (emptyLine l1); [discriminate|].
  destruct (getline r1) as [[l2 r2]|] eqn:G2; [|discriminate].
  destruct (emptyLine l2); [discriminate|].
  destruct (isValidHexadecimal l1) eqn:V1; [|discriminate].
  destruct (isValidHexadecimal l2) eqn:V2; [|discriminate].
  cbn [negb] in H. injection H as <- <-.
  apply getline_shape in G1 as [S1 Sh1].
  destruct Sh1 as [[_ Hr]|(l1' & E1 & N1)]; [subst r1; simpl in G2; discriminate|].
  apply getline_shape in G2 as [S2 Sh2].
  destruct (operand_of_line l1 (or_intror (ex_intro _ l1' (conj E1 N1))) V1) as [HA LA].
  assert (Sh2' : ~ In NL l2 \/ exists l', l2 = l' ++ [NL] /\ ~ In NL l')
    by (destruct Sh2 as [[H _]|H]; [left|right]; exact H).
  destruct (operand_of_line l2 Sh2' V2) as [HB LB].
  split; [exact HA|]. split; [exact HB|].
  assert (LA' : (length (trimNewline (cstr l1)) < length l1)%nat).
  { rewrite E1, trim_cstr_snoc_NL, trimNewline_noNL by (apply cstr_noNL || idtac; exact N1).
    rewrite length_app. simpl.
    pose proof (proj2 (valid_noNL_operand l1' N1 ltac:(rewrite E1, isValidHexadecimal_snoc_NL in V1; exact V1))).
    lia. }
  rewrite S1, S2, !length_app. lia.
Qed.

Lemma readInput_final_line (A B r : list ascii) :
  ~ In NL A -> ~ In NL B ->
  readInput (A ++ NL :: B ++ NL :: r) = readInput (A ++ NL :: B).
Proof.
  intros HA HB. unfold readInput.
  rewrite (getline_noNL A (B ++ NL :: r)), (getline_noNL A B) by exact HA.
  destruct (emptyLine (A ++ [NL])); [reflexivity|].
  destruct B as [|c B']; [reflexivity|].
  rewrite getline_noNL by exact HB.
  change (getline (c :: B')) with (Some (getline_aux (c :: B'))).
  rewrite getline_aux_noNL by exact HB.
  rewrite (emptyLine_line (c :: B')) by discriminate.
  assert (Ee : emptyLine (c :: B') = false).
  { destruct B' as [|d B'']; [|reflexivity].
    change (emptyLine [c]) with (Ascii.eqb c NL).
    destruct (Ascii.eqb_spec c NL) as [->|]; [exfalso; apply HB; left; reflexivity|reflexivity]. }
  rewrite Ee, (isValidHexadecimal_snoc_NL (c :: B')), (trim_cstr_snoc_NL (c :: B')) by exact HB.
  reflexivity.
Qed.

(** ** Runs of the whole program *)

Lemma intmul_run (f : nat) (stdin A B : list ascii) :
  readInput stdin = Some (A, B) ->
  forallb hexchar A = true -> forallb hexchar B = true ->
  (Nat.log2_up (Nat.max (length A) (length B)) <= f)%nat ->
  intmul (S f) stdin =
  (EXIT_SUCCESS, render (2 * nextPow2 (Nat.max (length A) (length B)))
                        (hex_value A * hex_value B) ++ [NL]).
Proof.
  intros R hA hB Hf. cbn [intmul]. rewrite R. cbv beta iota.
  rewrite padAndAlignNumbers_spec by (apply hexchar_no_NUL; assumption).
  set (N := nextPow2 (Nat.max (length A) (length B))).
  destruct (nextPow2_bounds (Nat.max (length A) (length B))) as [HN _]. fold N in HN.
  set (A' := repeat ZERO (N - length A) ++ A).
  set (B' := repeat ZERO (N - length B) ++ B).
  assert (LA : length A' = N) by (unfold A'; rewrite length_app, repeat_length; lia).
  assert (LB : length B' = N) by (unfold B'; rewrite length_app, repeat_length; lia).
  assert (hA' : forallb hexchar A' = true)
    by (unfold A'; rewrite forallb_app, forallb_repeat_zero; exact hA).
  assert (hB' : forallb hexchar B' = true)
    by (unfold B'; rewrite forallb_app, forallb_repeat_zero; exact hB).
  assert (VA : hex_value A' = hex_value A) by apply hv_shift_low.
  assert (VB : hex_value B' = hex_value B) by apply hv_shift_low.
  cbv beta iota.
  rewrite (mulBody_correct (Nat.log2_up (Nat.max (length A) (length B))) f A' B');
    try assumption.
  rewrite VA, VB. reflexivity.
Qed.

(** C1: for two valid hexadecimal lines [A] and [B] (non-empty, digits
    [0-9a-fA-F] only), the program exits with [EXIT_SUCCESS] and writes
    exactly one line: the product of the values of [A] and [B] in
    lowercase hexadecimal, zero-padded on the left to
    [2 * nextPow2 (max (length A) (length B))] digits, then a newline.
    ([fuel] bounds the depth of the process tree; any bound of at least
    [length A + length B] is enough.) *)
Theorem intmul_product (A B : list ascii) (fuel : nat) :
  A <> [] -> B <> [] -> forallb hexchar A = true -> forallb hexchar B = true ->
  (length A + length B <= fuel)%nat ->
  let W := (2 * nextPow2 (Nat.max (length A) (length B)))%nat in
  let out := render W (hex_value A * hex_value B) in
  intmul fuel (A ++ NL :: B ++ [NL]) = (EXIT_SUCCESS, out ++ [NL]) /\
  length out = W /\ forallb lowerhex out = true /\
  hex_value out = (hex_value A * hex_value B)%Z.
Proof.
  intros NA NB hA hB Hf W out.
  set (N := nextPow2 (Nat.max (length A) (length B))).
  assert (HM : (1 <= Nat.max (length A) (length B))%nat).
  { pose proof (Nat.le_max_l (length A) (length B)).
    assert (length A <> 0)%nat by (intros E; apply NA; apply length_zero_iff_nil; exact E).
    lia. }
  assert (HK : (Nat.log2_up (Nat.max (length A) (length B)) < Nat.max (length A) (length B))%nat)
    by (apply Nat.log2_up_lt_lin; lia).
  destruct (nextPow2_bounds (Nat.max (length A) (length B))) as [HN _]. fold N in HN.
  set (A' := repeat ZERO (N - length A) ++ A).
  set (B' := repeat ZERO (N - length B) ++ B).
  assert (LA : length A' = N) by (unfold A'; rewrite length_app, repeat_length; lia).
  assert (LB : length B' = N) by (unfold B'; rewrite length_app, repeat_length; lia).
  assert (hA' : forallb hexchar A' = true)
    by (unfold A'; rewrite forallb_app, forallb_repeat_zero; exact hA).
  assert (hB' : forallb hexchar B' = true)
    by (unfold B'; rewrite forallb_app, forallb_repeat_zero; exact hB).
  assert (VA : hex_value A' = hex_value A) by apply hv_shift_low.
  assert (VB : hex_value B' = hex_value B) by apply hv_shift_low.
  pose proof (product_range N A' B' LA LB hA' hB') as HR. rewrite VA, VB in HR.
  split; [|split; [apply render_length|split; [apply render_lowerhex|]]].
  - destruct fuel as [|f]; [lia|]. cbn [intmul].
    rewrite readInput_valid by assumption. cbv beta iota zeta.
    rewrite padAndAlignNumbers_spec by (apply hexchar_no_NUL; assumption).
    fold N. fold A' B'. cbv beta iota zeta.
    rewrite (mulBody_correct (Nat.log2_up (Nat.max (length A) (length B))) f A' B');
      try assumption; try lia.
    rewrite VA, VB. reflexivity.
  - apply render_value_small. exact HR.
Qed.

(** C2 (as the code does it): [waitForChildren] collects the children in
    index order and stops at the first exit status different from
    [EXIT_SUCCESS]: it goes past the barrier only when all four were
    collected with success; otherwise it has collected the children
    [0..j] up to the first failed one [j] and the process exits, leaving
    the later ones uncollected.  Every failure of [main] writes nothing
    to stdout. *)
Theorem waitForChildren_stops_at_first_failure (statuses : list Z) :
  (let '(collected, ok) := waitForChildren statuses in
   (ok = true -> collected = seq 0 (length statuses) /\
                 Forall (fun s => s = EXIT_SUCCESS) statuses) /\
   (ok = false -> exists j, collected = seq 0 (S j) /\
                            nth j statuses 0%Z <> EXIT_SUCCESS /\
                            (forall j', (j' < j)%nat -> nth j' statuses 0%Z = EXIT_SUCCESS))) /\
  (forall child A B, fst (mulBody child A B) <> EXIT_SUCCESS -> snd (mulBody child A B) = []).
Proof.
  split; [apply waitFrom_spec|]. apply mulBody_failure_silent.
Qed.

(** C2, counterexample: when child 0 fails, only child 0 is collected
    before the process exits; children 1, 2 and 3 are not waited for. *)
Lemma waitForChildren_leaves_children :
  waitForChildren [EXIT_FAILURE; EXIT_SUCCESS; EXIT_SUCCESS; EXIT_SUCCESS] = ([0%nat], false) /\
  ~ In 1%nat (fst (waitForChildren [EXIT_FAILURE; EXIT_SUCCESS; EXIT_SUCCESS; EXIT_SUCCESS])).
Proof.
  split; [reflexivity|]. simpl. intros [H|[]]. discriminate.
Qed.

(** C3: [padAndAlignNumbers] computes [maxLength] as the smallest power
    of two at least the larger of the two string lengths and left-pads
    both C strings with ['0'] to exactly that length. *)
Theorem padAndAlign_power_of_two (A B : list ascii) :
  let N := computeMaxLength (strlen A) (strlen B) in
  let L := Nat.max (strlen A) (strlen B) in
  (exists k, N = 2 ^ k) /\ (L <= N)%nat /\ (forall k, (L <= 2 ^ k)%nat -> (N <= 2 ^ k)%nat) /\
  padAndAlignNumbers A B =
    (repeat ZERO (N - strlen A) ++ cstr A, repeat ZERO (N - strlen B) ++ cstr B) /\
  length (fst (padAndAlignNumbers A B)) = N /\ length (snd (padAndAlignNumbers A B)) = N.
Proof.
  intros N L.
  assert (EN : N = nextPow2 L) by apply computeMaxLength_spec.
  destruct (nextPow2_bounds L) as [H1 H2]. rewrite <- EN in H1, H2.
  assert (HA : (strlen A <= N)%nat) by lia.
  assert (HB : (strlen B <= N)%nat) by lia.
  split; [exists (Nat.log2_up L); exact EN|].
  split; [exact H1|]. split; [exact H2|].
  split; [reflexivity|].
  unfold strlen in HA, HB. cbn [fst snd padAndAlignNumbers].
  unfold padAndAlignNumbers. fold N. cbn [fst snd].
  rewrite !length_app, !repeat_length. unfold strlen. split; lia.
Qed.

(** C4: one column of the summation (the carry digit of the previous
    column, then [addHexDigits] with the digits of the four shifted rows
    and the accumulating carry) yields the digit
    [(d0+d1+d2+d3+carry_in) mod 16] and the carry
    [(d0+d1+d2+d3+carry_in) div 16], for all hexadecimal digits. *)
Theorem column_digit_and_carry (cin d0 d1 d2 d3 : ascii) :
  hexchar cin = true -> hexchar d0 = true -> hexchar d1 = true ->
  hexchar d2 = true -> hexchar d3 = true ->
  let s := (hexDigitToInt d0 + hexDigitToInt d1 + hexDigitToInt d2
            + hexDigitToInt d3 + hexDigitToInt cin)%Z in
  column cin [d0; d1; d2; d3] = (intToHex (s mod 16), intToHex (s / 16)).
Proof.
  intros hc h0 h1 h2 h3 s.
  pose proof (hexchar_range cin hc).
  rewrite column_spec; [| exact (hexchar_range cin hc)
                        | simpl; rewrite h0, h1, h2, h3; reflexivity
                        | simpl; lia].
  replace (hexDigitToInt cin + digitSum [d0; d1; d2; d3])%Z with s
    by (unfold s, digitSum; simpl; lia).
  reflexivity.
Qed.

(** C5: the intermediate results (each line read back from a child:
    its [n] digits, then more bytes) are placed into rows of [2n]
    digits: result 0 with [n] zeros appended, results 1 and 2 shifted by
    [n/2] (with [n/2] zeros on each side), result 3 with [n] zeros in
    front.  In [main] the length [n] is a power of two [>= 2], [n = 2m]. *)
Theorem shift_by_index (m : nat) (P0 P1 P2 P3 r0 r1 r2 r3 : list ascii) :
  length P0 = (2 * m)%nat -> length P1 = (2 * m)%nat ->
  length P2 = (2 * m)%nat -> length P3 = (2 * m)%nat ->
  shiftResults (2 * m) [P0 ++ r0; P1 ++ r1; P2 ++ r2; P3 ++ r3] =
  [P0 ++ repeat ZERO (2 * m);
   repeat ZERO m ++ P1 ++ repeat ZERO m;
   repeat ZERO m ++ P2 ++ repeat ZERO m;
   repeat ZERO (2 * m) ++ P3].
Proof.
  intros H0 H1 H2 H3. unfold shiftResults. cbn [map nth].
  rewrite shiftRow_0, shiftRow_3, !shiftRow_mid by (auto; lia).
  reflexivity.
Qed.

(** C6: on two single hexadecimal digits the program prints their
    product (at most [225]) as exactly two lowercase hexadecimal digits,
    most significant first; ["f"] times ["f"] prints ["e1"]. *)
Theorem single_digit_product (a b : ascii) (fuel : nat) :
  hexchar a = true -> hexchar b = true -> (1 <= fuel)%nat ->
  let p := (hexDigitToInt a * hexDigitToInt b)%Z in
  (0 <= p <= 225)%Z /\
  intmul fuel [a; NL; b; NL] = (EXIT_SUCCESS, [intToHex (p / 16); intToHex (p mod 16); NL]) /\
  lowerhex (intToHex (p / 16)) = true /\ lowerhex (intToHex (p mod 16)) = true /\
  (16 * hexDigitToInt (intToHex (p / 16)) + hexDigitToInt (intToHex (p mod 16)) = p)%Z /\
  intmul fuel [ "f"; NL; "f"; NL]%char = (EXIT_SUCCESS, [ "e"; "1"; NL]%char).
Proof.
  intros ha hb Hf p.
  pose proof (hexchar_range a ha). pose proof (hexchar_range b hb).
  assert (Hp : (0 <= p <= 225)%Z) by (unfold p; nia).
  assert (Hq : (0 <= p / 16 <= 15)%Z).
  { split; [apply Z.div_pos; lia|]. apply Z.div_le_upper_bound; lia. }
  assert (Hrun : forall x y, hexchar x = true -> hexchar y = true ->
            intmul fuel [x; NL; y; NL]
            = (EXIT_SUCCESS, render 2 (hexDigitToInt x * hexDigitToInt y) ++ [NL])).
  { intros x y hx hy. destruct fuel as [|f]; [lia|]. cbn [intmul].
    assert (hx' : forallb hexchar [x] = true) by (simpl; rewrite hx; reflexivity).
    assert (hy' : forallb hexchar [y] = true) by (simpl; rewrite hy; reflexivity).
    change [x; NL; y; NL] with ([x] ++ NL :: [y] ++ NL :: []).
    rewrite (readInput_valid [x] [y] []) by (assumption || discriminate).
    cbv beta iota zeta.
    rewrite (padAndAlignNumbers_pow2 0) by (try apply hexchar_no_NUL; (assumption || reflexivity)).
    rewrite (mulBody_correct 0 f [x] [y]) by (assumption || reflexivity || lia).
    reflexivity. }
  split; [exact Hp|]. split.
  - rewrite Hrun by assumption. fold p. cbn [render app].
    rewrite (Z.mod_small (p / 16) 16) by lia.
    reflexivity.
  - rewrite !intToHex_lowerhex by (apply mod16_range || exact Hq).
    rewrite !intToHex_value by (apply mod16_range || exact Hq).
    split; [reflexivity|]. split; [reflexivity|]. split.
    + pose proof (Z.div_mod p 16). lia.
    + rewrite Hrun by reflexivity. reflexivity.
Qed.

(** C7: on two C strings of the same power-of-two length,
    [padAndAlignNumbers] returns them unchanged. *)
Theorem normalize_idempotent (k : nat) (A B : list ascii) :
  ~ In NUL A -> ~ In NUL B -> length A = (2 ^ k)%nat -> length B = (2 ^ k)%nat ->
  padAndAlignNumbers A B = (A, B).
Proof.
  intros NA NB HA HB. rewrite padAndAlignNumbers_spec by assumption.
  rewrite HA, HB, Nat.max_id, nextPow2_pow2, Nat.sub_diag. reflexivity.
Qed.

(** C8: when the four intermediate results are the products of the
    halves of two [2m]-digit operands, the carry left after the most
    significant column of the [4m]-digit sum is ['0']. *)
Theorem final_carry_zero (m : nat) (Ah Al Bh Bl r0 r1 r2 r3 : list ascii) :
  length Ah = m -> length Al = m -> length Bh = m -> length Bl = m ->
  forallb hexchar Ah = true -> forallb hexchar Al = true ->
  forallb hexchar Bh = true -> forallb hexchar Bl = true ->
  snd (sumLoop (2 * (2 * m))
         (shiftResults (2 * m)
            [render (2 * m) (hex_value Ah * hex_value Bh) ++ r0;
             render (2 * m) (hex_value Ah * hex_value Bl) ++ r1;
             render (2 * m) (hex_value Al * hex_value Bh) ++ r2;
             render (2 * m) (hex_value Al * hex_value Bl) ++ r3]) ZERO [])
  = ZERO.
Proof.
  intros. rewrite combine_spec by assumption. reflexivity.
Qed.

(** C9 (divergence): [isValidHexadecimal] and [strlen] stop at the first
    NUL byte of the line that [getline] read, so the bytes after it are
    never checked: the line ["1\000g"] is accepted as the number [1], and
    the program prints ["02"] and exits with [EXIT_SUCCESS]. *)
Theorem nul_hides_invalid_character (fuel : nat) :
  intmul (S fuel) ([ "1"; NUL; "g"; NL; "2"; NL]%char) = (EXIT_SUCCESS, [ "0"; "2"; NL]%char).
Proof. reflexivity. Qed.

(** C10: [isValidHexadecimal] returns [1] on every string made of the
    characters [0-9], [a-f], [A-F] and ['\n'] in any order, the empty
    string included. *)
Theorem isValidHexadecimal_accepts_newlines (s : list ascii) :
  forallb (fun c => hexchar c || Ascii.eqb c NL) s = true ->
  isValidHexadecimal s = true.
Proof.
  induction s as [|c s IH]; intros H; [reflexivity|].
  simpl in H. apply andb_prop in H as [Hc Hs].
  cbn [isValidHexadecimal].
  destruct (hexchar c) eqn:Hh.
  - destruct (hexchar_facts c Hh) as (-> & _ & -> & _). apply IH, Hs.
  - simpl in Hc. apply Ascii.eqb_eq in Hc. subst c. apply IH, Hs.
Qed.

(** Input lines without NUL bytes: a line holding a character that is not
    a hexadecimal digit makes the program exit with [EXIT_FAILURE] before
    anything is written to stdout. *)
Theorem invalid_line_rejected (fuel : nat) (L1 L2 rest : list ascii) :
  ~ In NUL L1 -> ~ In NL L1 -> ~ In NUL L2 -> ~ In NL L2 ->
  existsb (fun c => negb (hexchar c)) (L1 ++ L2) = true ->
  intmul fuel (L1 ++ NL :: L2 ++ NL :: rest) = (EXIT_FAILURE, []).
Proof.
  intros N1 H1 N2 H2 H. rewrite existsb_app in H.
  destruct (existsb (fun c => negb (hexchar c)) L1) eqn:E1.
  - apply invalid_first_line_rejected; [exact N1|exact H1|].
    apply existsb_nonhex; assumption.
  - apply invalid_second_line_rejected; [exact H1|exact N2|exact H2|].
    apply existsb_nonhex; [exact H2|exact H].
Qed.

(** [hexDigitToInt] and [intToHex] are inverse on digits:
    [intToHex (hexDigitToInt c)] is the lowercase form of every hexadecimal
    digit [c], and [hexDigitToInt (intToHex v) = v] for [0 <= v <= 15],
    with [intToHex v] a lowercase digit.  Out of their domains,
    [hexDigitToInt] returns [-1] and [intToHex] the byte [255] ([(char)-1]). *)
Theorem hex_conversions :
  (forall c, hexchar c = true ->
     (0 <= hexDigitToInt c <= 15)%Z /\ intToHex (hexDigitToInt c) = tolower c) /\
  (forall c, hexchar c = false -> hexDigitToInt c = (-1)%Z) /\
  (forall v, (0 <= v <= 15)%Z ->
     hexDigitToInt (intToHex v) = v /\ lowerhex (intToHex v) = true) /\
  (forall v, ~ (0 <= v <= 15)%Z -> intToHex v = ascii_of_nat 255).
Proof.
  split; [|split; [|split]].
  - intros c H. split; [apply hexchar_range, H|apply intToHex_of_digit, H].
  - intros c H. unfold hexDigitToInt. unfold hexchar in H. rewrite H. reflexivity.
  - intros v H. split; [apply intToHex_value, H|apply intToHex_lowerhex, H].
  - intros v H. unfold intToHex.
    destruct ((0 <=? v)%Z && (v <=? 15)%Z) eqn:E; [|reflexivity].
    apply andb_prop in E as [E1 E2]. apply Z.leb_le in E1, E2. lia.
Qed.

(** [multiplyHexDigits] on two hexadecimal digits returns two lowercase
    digits, the low one ([product]) and the high one ([carryOut]) of the
    product: [16 * carryOut + product = a * b]. *)
Theorem multiplyHexDigits_digits (a b : ascii) :
  hexchar a = true -> hexchar b = true ->
  let '(product, carryOut) := multiplyHexDigits a b in
  lowerhex product = true /\ lowerhex carryOut = true /\
  (16 * hexDigitToInt carryOut + hexDigitToInt product
   = hexDigitToInt a * hexDigitToInt b)%Z.
Proof.
  intros ha hb. pose proof (hexchar_range a ha). pose proof (hexchar_range b hb).
  unfold multiplyHexDigits. cbv beta iota zeta.
  set (r := (hexDigitToInt a * hexDigitToInt b)%Z).
  assert (Hr : (0 <= r <= 225)%Z) by (unfold r; nia).
  rewrite Z.rem_mod_nonneg, Z.quot_div_nonneg by lia.
  assert (Hq : (0 <= r / 16 <= 15)%Z)
    by (split; [apply Z.div_pos|apply Z.div_le_upper_bound]; lia).
  rewrite !intToHex_lowerhex, !intToHex_value by (apply mod16_range || exact Hq).
  split; [reflexivity|]. split; [reflexivity|]. pose proof (Z.div_mod r 16). lia.
Qed.

(** [addHexDigits a b &carry] on hexadecimal digits, with
    [result = a + b + 16 * carry]: when [result < 256] it returns a
    lowercase digit and stores a lowercase carry with
    [16 * carryOut + digit = result]; when [result >= 256] (a carry of
    ['f'] with [a + b >= 16]) the stored carry is the byte [255]. *)
Theorem addHexDigits_digits (a b k : ascii) :
  hexchar a = true -> hexchar b = true -> hexchar k = true ->
  let result := (hexDigitToInt a + hexDigitToInt b + 16 * hexDigitToInt k)%Z in
  let '(digit, carryOut) := addHexDigits a b k in
  ((result < 256)%Z ->
     lowerhex digit = true /\ lowerhex carryOut = true /\
     (16 * hexDigitToInt carryOut + hexDigitToInt digit = result)%Z) /\
  ((256 <= result)%Z -> carryOut = ascii_of_nat 255).
Proof.
  intros ha hb hk result.
  pose proof (hexchar_range a ha). pose proof (hexchar_range b hb).
  pose proof (hexchar_range k hk).
  rewrite addHexDigits_value by lia. fold result. cbv beta iota.
  split; intros Hr.
  - assert (Hq1 : (0 <= result / 16)%Z) by (apply Z.div_pos; unfold result; lia).
    assert (Hq2 : (result / 16 < 16)%Z) by (apply Z.div_lt_upper_bound; lia).
    assert (Hq : (0 <= result / 16 <= 15)%Z) by lia.
    rewrite !intToHex_lowerhex, !intToHex_value by (apply mod16_range || exact Hq).
    split; [reflexivity|]. split; [reflexivity|].
    pose proof (Z.div_mod result 16). lia.
  - assert (Hq : (16 <= result / 16)%Z) by (apply Z.div_le_lower_bound; lia).
    unfold intToHex.
    destruct ((0 <=? result / 16)%Z && (result / 16 <=? 15)%Z) eqn:E; [|reflexivity].
    apply andb_prop in E as [E1 E2]. apply Z.leb_le in E2. lia.
Qed.

(** [readInput] needs two lines: on empty input, on a single line (with
    or without its newline), on a first line that is only ['\n'] and on a
    second line that is only ['\n'], the program exits with
    [EXIT_FAILURE] and writes nothing to stdout. *)
Theorem intmul_missing_or_empty_line (fuel : nat) (L1 rest : list ascii) :
  ~ In NL L1 ->
  intmul fuel [] = (EXIT_FAILURE, []) /\
  intmul fuel L1 = (EXIT_FAILURE, []) /\
  intmul fuel (L1 ++ [NL]) = (EXIT_FAILURE, []) /\
  intmul fuel (NL :: rest) = (EXIT_FAILURE, []) /\
  intmul fuel (L1 ++ NL :: NL :: rest) = (EXIT_FAILURE, []).
Proof.
  intros HL. destruct fuel as [|f]; [repeat split|].
  cbn [intmul]. unfold readInput.
  split; [reflexivity|]. split; [|split; [|split]].
  - destruct L1 as [|c L1']; [reflexivity|].
    change (getline (c :: L1')) with (Some (getline_aux (c :: L1'))).
    rewrite getline_aux_noNL by exact HL. cbv beta iota.
    destruct (emptyLine (c :: L1')); reflexivity.
  - rewrite getline_noNL by exact HL. destruct (emptyLine (L1 ++ [NL])); reflexivity.
  - reflexivity.
  - rewrite getline_noNL by exact HL. destruct (emptyLine (L1 ++ [NL])); reflexivity.
Qed.

(** [readInput] reads two lines and no more, and the second line's newline
    may be missing at the end of the input: for lines [A] and [B] without
    newlines, the input [A\nB\n] followed by any bytes gives the same exit
    status and output as the input [A\nB]. *)
Theorem intmul_ignores_after_second_line (fuel : nat) (A B r : list ascii) :
  ~ In NL A -> ~ In NL B ->
  intmul fuel (A ++ NL :: B ++ NL :: r) = intmul fuel (A ++ NL :: B).
Proof.
  intros HA HB. destruct fuel as [|f]; [reflexivity|]. cbn [intmul].
  rewrite readInput_final_line by assumption. reflexivity.
Qed.

(** A child reads back exactly the operands its parent sends: for two
    operands of [2^k] hexadecimal digits, [readInput] on the bytes written
    by [sendInputToChild A B] returns [(A, B)], and [padAndAlignNumbers]
    leaves them unchanged. *)
Theorem child_reads_its_operands (k : nat) (A B : list ascii) :
  length A = (2 ^ k)%nat -> length B = (2 ^ k)%nat ->
  forallb hexchar A = true -> forallb hexchar B = true ->
  readInput (sendInputToChild A B) = Some (A, B) /\ padAndAlignNumbers A B = (A, B).
Proof.
  intros LA LB hA hB. pose proof (pow2_pos k). split.
  - unfold sendInputToChild. apply readInput_valid; try assumption;
      intros ->; simpl in *; lia.
  - apply (padAndAlignNumbers_pow2 k); try apply hexchar_no_NUL; assumption.
Qed.

(** [splitNumbers] on two C strings of [2m] characters returns their
    halves of [m] characters: [Ah ++ Al = A] and [Bh ++ Bl = B], so that
    [value A = value Ah * 16^m + value Al], and the same for [B]. *)
Theorem splitNumbers_value (m : nat) (A B : list ascii) :
  length A = (2 * m)%nat -> length B = (2 * m)%nat -> ~ In NUL A -> ~ In NUL B ->
  let '(Ah, Al, Bh, Bl) := splitNumbers A B in
  Ah ++ Al = A /\ Bh ++ Bl = B /\
  length Ah = m /\ length Al = m /\ length Bh = m /\ length Bl = m /\
  hex_value A = (hex_value Ah * 16 ^ Z.of_nat m + hex_value Al)%Z /\
  hex_value B = (hex_value Bh * 16 ^ Z.of_nat m + hex_value Bl)%Z.
Proof.
  intros HA HB NA NB. rewrite (splitNumbers_halves m) by assumption. cbv beta iota.
  assert (V : forall X, length X = (2 * m)%nat ->
            hex_value X = (hex_value (firstn m X) * 16 ^ Z.of_nat m + hex_value (skipn m X))%Z).
  { intros X HX. rewrite <- (firstn_skipn m X) at 1. rewrite hex_value_app, length_skipn, HX.
    replace (2 * m - m)%nat with m by lia. reflexivity. }
  rewrite !firstn_skipn, !length_firstn, !length_skipn, <- !V by assumption.
  repeat split; lia.
Qed.

(** The summation loop of [main] adds four rows of [w] hexadecimal
    digits: it returns the sum [S] of their values rendered in [w]
    lowercase digits (its value is [S mod 16^w]) and the carry digit of
    [S / 16^w], which is at most [3]. *)
Theorem sumLoop_adds_rows (w : nat) (R0 R1 R2 R3 : list ascii) :
  length R0 = w -> length R1 = w -> length R2 = w -> length R3 = w ->
  forallb hexchar R0 = true -> forallb hexchar R1 = true ->
  forallb hexchar R2 = true -> forallb hexchar R3 = true ->
  let S := (hex_value R0 + hex_value R1 + hex_value R2 + hex_value R3)%Z in
  sumLoop w [R0; R1; R2; R3] ZERO [] = (render w S, intToHex (S / 16 ^ Z.of_nat w)) /\
  hex_value (render w S) = (S mod 16 ^ Z.of_nat w)%Z /\
  (0 <= S / 16 ^ Z.of_nat w <= 3)%Z.
Proof.
  intros L0 L1 L2 L3 h0 h1 h2 h3 S.
  assert (WF : wellFormedRows w [R0; R1; R2; R3]).
  { repeat constructor; lia || assumption. }
  assert (PS : prefixSum w [R0; R1; R2; R3] = S).
  { unfold prefixSum, S. cbn [fold_right].
    rewrite !firstn_all2 by lia. ring. }
  change ZERO with (intToHex 0).
  rewrite sumLoop_spec by (reflexivity || assumption || lia).
  rewrite PS, Z.add_0_r, app_nil_r.
  split; [reflexivity|]. split; [apply render_value|].
  pose proof (hex_value_range R0 h0). pose proof (hex_value_range R1 h1).
  pose proof (hex_value_range R2 h2). pose proof (hex_value_range R3 h3).
  rewrite L0 in *. rewrite L1 in *. rewrite L2 in *. rewrite L3 in *.
  split; [apply Z.div_pos; unfold S; lia|].
  assert (S < 16 ^ Z.of_nat w * 4)%Z by (unfold S; lia).
  assert (S / 16 ^ Z.of_nat w < 4)%Z by (apply Z.div_lt_upper_bound; lia).
  lia.
Qed.

(** Whatever its input, when the program exits with a status other than
    [EXIT_SUCCESS] it has written nothing to stdout. *)
Theorem intmul_failure_silent (fuel : nat) (stdin : list ascii) :
  fst (intmul fuel stdin) <> EXIT_SUCCESS -> snd (intmul fuel stdin) = [].
Proof.
  destruct fuel as [|f]; [intros _; reflexivity|]. cbn [intmul].
  destruct (readInput stdin) as [[A B]|]; [|intros _; reflexivity].
  destruct (padAndAlignNumbers A B) as [a b]. apply mulBody_failure_silent.
Qed.

(** Every run, on any input: either the program exits with [EXIT_FAILURE]
    and writes nothing to stdout, or [readInput] returned two operands
    [A] and [B] made of hexadecimal digits (possibly empty after a NUL
    byte) and the program prints [value A * value B] in
    [2 * nextPow2 (max |A| |B|)] lowercase digits and a newline, with
    [EXIT_SUCCESS]. *)
Theorem intmul_input_output (fuel : nat) (stdin : list ascii) :
  (length stdin <= fuel)%nat ->
  intmul fuel stdin = (EXIT_FAILURE, []) \/
  exists A B, readInput stdin = Some (A, B) /\
    forallb hexchar A = true /\ forallb hexchar B = true /\
    intmul fuel stdin =
    (EXIT_SUCCESS, render (2 * nextPow2 (Nat.max (length A) (length B)))
                          (hex_value A * hex_value B) ++ [NL]).
Proof.
  intros Hf. destruct (readInput stdin) as [[A B]|] eqn:R.
  - right. destruct (readInput_operands stdin A B R) as (hA & hB & HL).
    exists A, B. split; [reflexivity|]. split; [exact hA|]. split; [exact hB|].
    destruct fuel as [|f]; [lia|].
    apply intmul_run; try assumption.
    pose proof (Nat.log2_up_le_lin (Nat.max (length A) (length B)) (Nat.le_0_l _)).
    lia.
  - left. destruct fuel as [|f]; [reflexivity|]. cbn [intmul]. rewrite R. reflexivity.
Qed.

(** Multiplication by the program is commutative: swapping the two input
    lines changes neither the exit status nor the output. *)
Theorem intmul_commutative (fuel : nat) (A B : list ascii) :
  A <> [] -> B <> [] -> forallb hexchar A = true -> forallb hexchar B = true ->
  (length A + length B <= fuel)%nat ->
  intmul fuel (A ++ NL :: B ++ [NL]) = intmul fuel (B ++ NL :: A ++ [NL]).
Proof.
  intros NA NB hA hB Hf.
  assert (LA : length A <> 0%nat) by (intros E; apply NA, length_zero_iff_nil, E).
  assert (LB : length B <> 0%nat) by (intros E; apply NB, length_zero_iff_nil, E).
  destruct fuel as [|f]; [lia|].
  pose proof (Nat.log2_up_le_lin (Nat.max (length A) (length B)) (Nat.le_0_l _)).
  assert (Hk : (Nat.log2_up (Nat.max (length A) (length B)) <= f)%nat) by lia.
  assert (Hk' : (Nat.log2_up (Nat.max (length B) (length A)) <= f)%nat)
    by (rewrite Nat.max_comm; exact Hk).
  rewrite (intmul_run f _ A B), (intmul_run f _ B A);
    try (apply readInput_valid; assumption); try assumption.
  rewrite Nat.max_comm, Z.mul_comm. reflexivity.
Qed.

(** Upper and lower case are the same to the program: replacing the
    letters of the operands by their lowercase forms changes neither the
    exit status nor the output. *)
Theorem intmul_case_insensitive (fuel : nat) (A B : list ascii) :
  A <> [] -> B <> [] -> forallb hexchar A = true -> forallb hexchar B = true ->
  (length A + length B <= fuel)%nat ->
  intmul fuel (map tolower A ++ NL :: map tolower B ++ [NL])
  = intmul fuel (A ++ NL :: B ++ [NL]).
Proof.
  intros NA NB hA hB Hf.
  assert (LA : length A <> 0%nat) by (intros E; apply NA, length_zero_iff_nil, E).
  assert (LB : length B <> 0%nat) by (intros E; apply NB, length_zero_iff_nil, E).
  destruct (hex_value_tolower A hA) as [hA' VA].
  destruct (hex_value_tolower B hB) as [hB' VB].
  assert (NA' : map tolower A <> []) by (destruct A; [congruence|discriminate]).
  assert (NB' : map tolower B <> []) by (destruct B; [congruence|discriminate]).
  destruct fuel as [|f]; [lia|].
  pose proof (Nat.log2_up_le_lin (Nat.max (length A) (length B)) (Nat.le_0_l _)).
  assert (Hk : (Nat.log2_up (Nat.max (length A) (length B)) <= f)%nat) by lia.
  rewrite (intmul_run f _ (map tolower A) (map tolower B)),
          (intmul_run f _ A B);
    try (apply readInput_valid; assumption); try assumption;
    rewrite ?length_map; try assumption.
  rewrite VA, VB. reflexivity.
Qed.

(** ** Instances of the claims' hypotheses *)

Lemma intmul_product_witness :
  (str "1a" <> [] /\ str "ab" <> [] /\ forallb hexchar (str "1a") = true /\
   forallb hexchar (str "ab") = true /\ (length (str "1a") + length (str "ab") <= 4)%nat) /\
  (let W := (2 * nextPow2 (Nat.max (length (str "1a")) (length (str "ab"))))%nat in
   let out := render W (hex_value (str "1a") * hex_value (str "ab")) in
   intmul 4 (str "1a" ++ NL :: str "ab" ++ [NL]) = (EXIT_SUCCESS, out ++ [NL]) /\
   length out = W /\ forallb lowerhex out = true /\
   hex_value out = (hex_value (str "1a") * hex_value (str "ab"))%Z).
Proof.
  split.
  - split; [discriminate|]. split; [discriminate|].
    split; [reflexivity|]. split; [reflexivity|]. simpl; lia.
  - apply (intmul_product (str "1a") (str "ab") 4);
      (discriminate || reflexivity || (simpl; lia)).
Defined.

Lemma column_digit_and_carry_witness :
  (hexchar "4" = true /\ hexchar "f" = true /\ hexchar "F" = true /\
   hexchar "9" = true /\ hexchar "a" = true)%char /\
  (let s := (hexDigitToInt "f" + hexDigitToInt "F" + hexDigitToInt "9"
             + hexDigitToInt "a" + hexDigitToInt "4")%Z in
   column "4" [ "f"; "F"; "9"; "a"]%char = (intToHex (s mod 16), intToHex (s / 16))).
Proof.
  split; [repeat split; reflexivity|].
  apply (column_digit_and_carry "4" "f" "F" "9" "a")%char; reflexivity.
Defined.

Lemma shift_by_index_witness :
  (length (str "01") = (2 * 1)%nat /\ length (str "23") = (2 * 1)%nat /\
   length (str "45") = (2 * 1)%nat /\ length (str "67") = (2 * 1)%nat) /\
  shiftResults (2 * 1) [str "01" ++ [NL]; str "23" ++ [NL]; str "45" ++ [NL]; str "67" ++ [NL]] =
  [str "01" ++ repeat ZERO (2 * 1);
   repeat ZERO 1 ++ str "23" ++ repeat ZERO 1;
   repeat ZERO 1 ++ str "45" ++ repeat ZERO 1;
   repeat ZERO (2 * 1) ++ str "67"].
Proof.
  split; [repeat split; reflexivity|].
  apply (shift_by_index 1); reflexivity.
Defined.

Lemma single_digit_product_witness :
  (hexchar "f" = true /\ hexchar "C" = true /\ (1 <= 1)%nat)%char /\
  (let p := (hexDigitToInt "f" * hexDigitToInt "C")%Z in
   (0 <= p <= 225)%Z /\
   intmul 1 [ "f"; NL; "C"; NL]%char = (EXIT_SUCCESS, [intToHex (p / 16); intToHex (p mod 16); NL]) /\
   lowerhex (intToHex (p / 16)) = true /\ lowerhex (intToHex (p mod 16)) = true /\
   (16 * hexDigitToInt (intToHex (p / 16)) + hexDigitToInt (intToHex (p mod 16)) = p)%Z /\
   intmul 1 [ "f"; NL; "f"; NL]%char = (EXIT_SUCCESS, [ "e"; "1"; NL]%char)).
Proof.
  split; [repeat split; reflexivity|].
  apply (single_digit_product "f" "C" 1)%char; (reflexivity || lia).
Defined.

Lemma normalize_idempotent_witness :
  (~ In NUL (str "00ab") /\ ~ In NUL (str "12cd") /\
   length (str "00ab") = (2 ^ 2)%nat /\ length (str "12cd") = (2 ^ 2)%nat) /\
  padAndAlignNumbers (str "00ab") (str "12cd") = (str "00ab", str "12cd").
Proof.
  assert (N1 : ~ In NUL (str "00ab")) by (apply hexchar_no_NUL; reflexivity).
  assert (N2 : ~ In NUL (str "12cd")) by (apply hexchar_no_NUL; reflexivity).
  split; [repeat split; (assumption || reflexivity)|].
  apply (normalize_idempotent 2); (assumption || reflexivity).
Defined.

Lemma final_carry_zero_witness :
  (length (str "f") = 1%nat /\ length (str "e") = 1%nat /\
   length (str "d") = 1%nat /\ length (str "c") = 1%nat /\
   forallb hexchar (str "f") = true /\ forallb hexchar (str "e") = true /\
   forallb hexchar (str "d") = true /\ forallb hexchar (str "c") = true) /\
  snd (sumLoop (2 * (2 * 1))
         (shiftResults (2 * 1)
            [render (2 * 1) (hex_value (str "f") * hex_value (str "d")) ++ [NL];
             render (2 * 1) (hex_value (str "f") * hex_value (str "c")) ++ [NL];
             render (2 * 1) (hex_value (str "e") * hex_value (str "d")) ++ [NL];
             render (2 * 1) (hex_value (str "e") * hex_value (str "c")) ++ [NL]]) ZERO [])
  = ZERO.
Proof.
  split; [repeat split; reflexivity|].
  apply (final_carry_zero 1); reflexivity.
Defined.

Lemma isValidHexadecimal_accepts_newlines_witness :
  forallb (fun c => hexchar c || Ascii.eqb c NL) [NL; "a"; NL; "F"]%char = true /\
  isValidHexadecimal [NL; "a"; NL; "F"]%char = true.
Proof.
  split; [reflexivity|].
  apply isValidHexadecimal_accepts_newlines; reflexivity.
Defined.

Lemma invalid_line_rejected_witness :
  (~ In NUL (str "12") /\ ~ In NL (str "12") /\ ~ In NUL (str "4x") /\ ~ In NL (str "4x") /\
   existsb (fun c => negb (hexchar c)) (str "12" ++ str "4x") = true) /\
  intmul 3 (str "12" ++ NL :: str "4x" ++ NL :: []) = (EXIT_FAILURE, []).
Proof.
  assert (A1 : ~ In NUL (str "12")) by (simpl; intuition discriminate).
  assert (A2 : ~ In NL (str "12")) by (simpl; intuition discriminate).
  assert (A3 : ~ In NUL (str "4x")) by (simpl; intuition discriminate).
  assert (A4 : ~ In NL (str "4x")) by (simpl; intuition discriminate).
  split; [repeat split; (assumption || reflexivity)|].
  apply invalid_line_rejected; (assumption || reflexivity).
Defined.

Lemma multiplyHexDigits_digits_witness :
  (hexchar "f" = true /\ hexchar "E" = true) /\
  (let '(product, carryOut) := multiplyHexDigits "f" "E" in
   lowerhex product = true /\ lowerhex carryOut = true /\
   (16 * hexDigitToInt carryOut + hexDigitToInt product
    = hexDigitToInt "f" * hexDigitToInt "E")%Z).
Proof.
  split; [split; reflexivity|].
  apply multiplyHexDigits_digits; reflexivity.
Defined.

Lemma addHexDigits_digits_witness :
  (hexchar "9" = true /\ hexchar "8" = true /\ hexchar "3" = true) /\
  (let result := (hexDigitToInt "9" + hexDigitToInt "8" + 16 * hexDigitToInt "3")%Z in
   let '(digit, carryOut) := addHexDigits "9" "8" "3" in
   ((result < 256)%Z ->
      lowerhex digit = true /\ lowerhex carryOut = true /\
      (16 * hexDigitToInt carryOut + hexDigitToInt digit = result)%Z) /\
   ((256 <= result)%Z -> carryOut = ascii_of_nat 255)).
Proof.
  split; [repeat split; reflexivity|].
  apply addHexDigits_digits; reflexivity.
Defined.

Lemma intmul_missing_or_empty_line_witness :
  ~ In NL (str "1a") /\
  (intmul 2 [] = (EXIT_FAILURE, []) /\
   intmul 2 (str "1a") = (EXIT_FAILURE, []) /\
   intmul 2 (str "1a" ++ [NL]) = (EXIT_FAILURE, []) /\
   intmul 2 (NL :: ["5"%char; NL]) = (EXIT_FAILURE, []) /\
   intmul 2 (str "1a" ++ NL :: NL :: ["5"%char; NL]) = (EXIT_FAILURE, [])).
Proof.
  assert (H : ~ In NL (str "1a")) by (simpl; intuition discriminate).
  split; [exact H|]. apply intmul_missing_or_empty_line; exact H.
Defined.

Lemma intmul_ignores_after_second_line_witness :
  (~ In NL (str "12") /\ ~ In NL (str "3")) /\
  intmul 3 (str "12" ++ NL :: str "3" ++ NL :: str "zz") = intmul 3 (str "12" ++ NL :: str "3").
Proof.
  assert (H1 : ~ In NL (str "12")) by (simpl; intuition discriminate).
  assert (H2 : ~ In NL (str "3")) by (simpl; intuition discriminate).
  split; [split; assumption|]. apply intmul_ignores_after_second_line; assumption.
Defined.

Lemma child_reads_its_operands_witness :
  (length (str "a1") = (2 ^ 1)%nat /\ length (str "0F") = (2 ^ 1)%nat /\
   forallb hexchar (str "a1") = true /\ forallb hexchar (str "0F") = true) /\
  (readInput (sendInputToChild (str "a1") (str "0F")) = Some (str "a1", str "0F") /\
   padAndAlignNumbers (str "a1") (str "0F") = (str "a1", str "0F")).
Proof.
  split; [repeat split; reflexivity|].
  apply (child_reads_its_operands 1); reflexivity.
Defined.

Lemma splitNumbers_value_witness :
  (length (str "1234") = (2 * 2)%nat /\ length (str "abcd") = (2 * 2)%nat /\
   ~ In NUL (str "1234") /\ ~ In NUL (str "abcd")) /\
  (let '(Ah, Al, Bh, Bl) := splitNumbers (str "1234") (str "abcd") in
   Ah ++ Al = str "1234" /\ Bh ++ Bl = str "abcd" /\
   length Ah = 2%nat /\ length Al = 2%nat /\ length Bh = 2%nat /\ length Bl = 2%nat /\
   hex_value (str "1234") = (hex_value Ah * 16 ^ Z.of_nat 2 + hex_value Al)%Z /\
   hex_value (str "abcd") = (hex_value Bh * 16 ^ Z.of_nat 2 + hex_value Bl)%Z).
Proof.
  assert (N1 : ~ In NUL (str "1234")) by (apply hexchar_no_NUL; reflexivity).
  assert (N2 : ~ In NUL (str "abcd")) by (apply hexchar_no_NUL; reflexivity).
  split; [repeat split; (assumption || reflexivity)|].
  apply (splitNumbers_value 2); (assumption || reflexivity).
Defined.

Lemma sumLoop_adds_rows_witness :
  (length (str "ff") = 2%nat /\ length (str "ff") = 2%nat /\
   length (str "10") = 2%nat /\ length (str "0A") = 2%nat /\
   forallb hexchar (str "ff") = true /\ forallb hexchar (str "ff") = true /\
   forallb hexchar (str "10") = true /\ forallb hexchar (str "0A") = true) /\
  (let S := (hex_value (str "ff") + hex_value (str "ff") + hex_value (str "10")
             + hex_value (str "0A"))%Z in
   sumLoop 2 [str "ff"; str "ff"; str "10"; str "0A"] ZERO []
   = (render 2 S, intToHex (S / 16 ^ Z.of_nat 2)) /\
   hex_value (render 2 S) = (S mod 16 ^ Z.of_nat 2)%Z /\
   (0 <= S / 16 ^ Z.of_nat 2 <= 3)%Z).
Proof.
  split; [repeat split; reflexivity|].
  apply sumLoop_adds_rows; reflexivity.
Defined.

Lemma intmul_failure_silent_witness :
  fst (intmul 3 ["x"%char; NL; "1"%char; NL]) <> EXIT_SUCCESS /\
  snd (intmul 3 ["x"%char; NL; "1"%char; NL]) = [].
Proof.
  assert (H : fst (intmul 3 ["x"%char; NL; "1"%char; NL]) <> EXIT_SUCCESS)
    by (intros E; vm_compute in E; discriminate E).
  split; [exact H|]. apply intmul_failure_silent; exact H.
Defined.

Lemma intmul_input_output_witness :
  (length (str "1a" ++ NL :: str "ab" ++ [NL]) <= 6)%nat /\
  (intmul 6 (str "1a" ++ NL :: str "ab" ++ [NL]) = (EXIT_FAILURE, []) \/
   exists A B, readInput (str "1a" ++ NL :: str "ab" ++ [NL]) = Some (A, B) /\
     forallb hexchar A = true /\ forallb hexchar B = true /\
     intmul 6 (str "1a" ++ NL :: str "ab" ++ [NL]) =
     (EXIT_SUCCESS, render (2 * nextPow2 (Nat.max (length A) (length B)))
                           (hex_value A * hex_value B) ++ [NL])).
Proof.
  split; [simpl; lia|].
  apply intmul_input_output; simpl; lia.
Defined.

Lemma intmul_commutative_witness :
  (str "1A" <> [] /\ str "b" <> [] /\ forallb hexchar (str "1A") = true /\
   forallb hexchar (str "b") = true /\ (length (str "1A") + length (str "b") <= 3)%nat) /\
  intmul 3 (str "1A" ++ NL :: str "b" ++ [NL]) = intmul 3 (str "b" ++ NL :: str "1A" ++ [NL]).
Proof.
  split; [repeat split; (discriminate || reflexivity || (simpl; lia))|].
  apply intmul_commutative; (discriminate || reflexivity || (simpl; lia)).
Defined.

Lemma intmul_case_insensitive_witness :
  (str "Fe" <> [] /\ str "A1" <> [] /\ forallb hexchar (str "Fe") = true /\
   forallb hexchar (str "A1") = true /\ (length (str "Fe") + length (str "A1") <= 4)%nat) /\
  intmul 4 (map tolower (str "Fe") ++ NL :: map tolower (str "A1") ++ [NL])
  = intmul 4 (str "Fe" ++ NL :: str "A1" ++ [NL]).
Proof.
  split; [repeat split; (discriminate || reflexivity || (simpl; lia))|].
  apply intmul_case_insensitive; (discriminate || reflexivity || (simpl; lia)).
Defined.
